(** * V-Trace: chunk hashing and Merkle root, verified against the sources

    Shallow embedding of
      - backend/src/core/merkle.js              ([Merkle])
      - backend/src/core/generateChunkHashes.js ([GenerateChunkHashes])
      - backend/src/core/chunkHasher.js         ([ChunkHasher])
      - backend/src/core/hasher.js              ([Hasher])

    Modelling conventions.
      - JS numbers that the code uses as lengths, offsets and indices are
        exact integers in [Z]; a number argument that need not be an
        integer is a [number].
      - JS strings are [string]s (code units below 256); Buffers are
        [list byte]; arrays live in a heap of objects and are passed by
        reference ([VObject l]).
      - [crypto.createHash('sha256')] is the FIPS 180-4 function of module
        [SHA256]; a Hash object is the list of bytes absorbed so far.
      - A read stream is the list of buffers it delivers through 'data'
        followed by 'end' or 'error'.
      - Loops take fuel; running out of it is an outcome of its own
        ([OutOfFuel] in merkle.js, [Unfinished] for a promise), and the
        statements say how much fuel is enough. *)

From Stdlib Require Import ZArith Strings.Byte Strings.Ascii Strings.String List Lia.
From stdpp Require Import base list strings.
Import ListNotations.
Local Open Scope Z_scope.

(** ** SHA-256 (FIPS 180-4), the function behind [createHash('sha256')] *)

Module SHA256.

Definition word := Z.
Definition wrap (x : Z) : word := x mod 2 ^ 32.
Definition add32 (x y : word) : word := wrap (x + y).
Definition rotr (n : Z) (x : word) : word :=
  Z.lor (Z.shiftr x n) (wrap (Z.shiftl x (32 - n))).
Definition shr (n : Z) (x : word) : word := Z.shiftr x n.
Definition not32 (x : word) : word := Z.lxor x 4294967295.

Definition Ch (x y z : word) : word := Z.lxor (Z.land x y) (Z.land (not32 x) z).
Definition Maj (x y z : word) : word :=
  Z.lxor (Z.lxor (Z.land x y) (Z.land x z)) (Z.land y z).
Definition Sigma0 (x : word) : word := Z.lxor (Z.lxor (rotr 2 x) (rotr 13 x)) (rotr 22 x).
Definition Sigma1 (x : word) : word := Z.lxor (Z.lxor (rotr 6 x) (rotr 11 x)) (rotr 25 x).
Definition sigma0 (x : word) : word := Z.lxor (Z.lxor (rotr 7 x) (rotr 18 x)) (shr 3 x).
Definition sigma1 (x : word) : word := Z.lxor (Z.lxor (rotr 17 x) (rotr 19 x)) (shr 10 x).

(** The round constants are the first 32 bits of the fractional parts of
    the cube roots of the first 64 primes; the initial chaining words are
    those of the square roots of the first 8. *)
Definition is_prime (n : nat) : bool :=
  forallb (fun d => negb (Nat.eqb (Nat.modulo n d) 0)) (seq 2 (n - 2)).

Definition primes : list Z := map Z.of_nat (List.filter is_prime (seq 2 310)).

Fixpoint cube_root_bits (bits : nat) (x acc : Z) : Z :=
  match bits with
  | O => acc
  | S bits' =>
      let next := acc + 2 ^ Z.of_nat bits' in
      if next * next * next <=? x
      then cube_root_bits bits' x next
      else cube_root_bits bits' x acc
  end.

Definition cube_root_fraction (p : Z) : word := wrap (cube_root_bits 40 (p * 2 ^ 96) 0).
Definition square_root_fraction (p : Z) : word := wrap (Z.sqrt (p * 2 ^ 64)).

Definition K : list word := Eval vm_compute in map cube_root_fraction primes.

(** The eight chaining words. *)
Record state := State {
  ha : word; hb : word; hc : word; hd : word;
  he : word; hf : word; hg : word; hh : word }.

Definition H0 : state :=
  Eval vm_compute in
    State (square_root_fraction 2) (square_root_fraction 3)
          (square_root_fraction 5) (square_root_fraction 7)
          (square_root_fraction 11) (square_root_fraction 13)
          (square_root_fraction 17) (square_root_fraction 19).

Definition byte_to_Z (b : byte) : Z := Z.of_N (Byte.to_N b).
Definition Z_to_byte (z : Z) : byte :=
  match Byte.of_N (Z.to_N (z mod 256)) with
  | Some b => b
  | None => x00
  end.

Definition word_to_bytes (w : word) : list byte :=
  [ Z_to_byte (Z.shiftr w 24); Z_to_byte (Z.shiftr w 16);
    Z_to_byte (Z.shiftr w 8); Z_to_byte w ].

Fixpoint bytes_to_words (l : list byte) : list word :=
  match l with
  | b0 :: b1 :: b2 :: b3 :: rest =>
      (Z.shiftl (byte_to_Z b0) 24 + Z.shiftl (byte_to_Z b1) 16
       + Z.shiftl (byte_to_Z b2) 8 + byte_to_Z b3) :: bytes_to_words rest
  | _ => []
  end.

(** Message padding: a one bit, zeros up to 56 mod 64, the bit length on 64 bits. *)
Definition length_bytes (bits : Z) : list byte :=
  word_to_bytes (wrap (Z.shiftr bits 32)) ++ word_to_bytes (wrap bits).

Definition pad (msg : list byte) : list byte :=
  let n := Z.of_nat (length msg) in
  let zeros := Z.to_nat ((55 - n) mod 64) in
  msg ++ x80 :: repeat x00 zeros ++ length_bytes (8 * n).

(** Message schedule: [extend k w] appends [k] further words to [w]. *)
Fixpoint extend (k : nat) (w : list word) : list word :=
  match k with
  | O => w
  | S k' =>
      let t := length w in
      let at_ i := nth (t - i) w 0 in
      extend k' (w ++ [add32 (add32 (sigma1 (at_ 2%nat)) (at_ 7%nat))
                             (add32 (sigma0 (at_ 15%nat)) (at_ 16%nat))])
  end.

Definition round (s : state) (kw : word * word) : state :=
  let '(k, w) := kw in
  let t1 := add32 (add32 (add32 (hh s) (Sigma1 (he s))) (add32 (Ch (he s) (hf s) (hg s)) k)) w in
  let t2 := add32 (Sigma0 (ha s)) (Maj (ha s) (hb s) (hc s)) in
  State (add32 t1 t2) (ha s) (hb s) (hc s) (add32 (hd s) t1) (he s) (hf s) (hg s).

Definition compress (s : state) (block : list byte) : state :=
  let w := extend 48 (bytes_to_words block) in
  let r := fold_left round (combine K w) s in
  State (add32 (ha s) (ha r)) (add32 (hb s) (hb r)) (add32 (hc s) (hc r))
        (add32 (hd s) (hd r)) (add32 (he s) (he r)) (add32 (hf s) (hf r))
        (add32 (hg s) (hg r)) (add32 (hh s) (hh r)).

Fixpoint blocks (n : nat) (l : list byte) : list (list byte) :=
  match n with
  | O => []
  | S n' => firstn 64 l :: blocks n' (skipn 64 l)
  end.

Definition state_bytes (s : state) : list byte :=
  word_to_bytes (ha s) ++ word_to_bytes (hb s) ++ word_to_bytes (hc s) ++
  word_to_bytes (hd s) ++ word_to_bytes (he s) ++ word_to_bytes (hf s) ++
  word_to_bytes (hg s) ++ word_to_bytes (hh s).

Definition sha256 (msg : list byte) : list byte :=
  let p := pad msg in
  state_bytes (fold_left compress (blocks (length p / 64) p) H0).

End SHA256.

Global Arguments SHA256.sha256 : simpl never.

(** ** Hexadecimal text, as [digest('hex')] and [Buffer.from(_, 'hex')] *)

Module Hex.

(** The digit of a value below 16, in lower case. *)
Definition hex_digit (n : N) : ascii :=
  ascii_of_N (if n <? 10 then 48 + n else 87 + n)%N.

Definition byte_to_hex (b : byte) : list ascii :=
  let n := Byte.to_N b in [hex_digit (n / 16); hex_digit (n mod 16)].

(** [hash.digest('hex')] renders bytes as lowercase hexadecimal text. *)
Definition to_hex (bs : list byte) : string :=
  string_of_list_ascii (flat_map byte_to_hex bs).

(** The value of a hexadecimal digit, in either case. *)
Definition hex_value (c : ascii) : option N :=
  let n := N_of_ascii c in
  if ((48 <=? n) && (n <=? 57))%N then Some (n - 48)%N
  else if ((97 <=? n) && (n <=? 102))%N then Some (n - 87)%N
  else if ((65 <=? n) && (n <=? 70))%N then Some (n - 55)%N
  else None.

Definition byte_of_nibbles (hi lo : N) : byte :=
  match Byte.of_N (16 * hi + lo) with
  | Some b => b
  | None => x00
  end.

(** [Buffer.from(s, 'hex')]: pairs of digits are decoded until the first
    pair that is not two hexadecimal digits; the rest is dropped. *)
Fixpoint decode (cs : list ascii) : list byte :=
  match cs with
  | c1 :: c2 :: rest =>
      match hex_value c1, hex_value c2 with
      | Some hi, Some lo => byte_of_nibbles hi lo :: decode rest
      | _, _ => []
      end
  | _ => []
  end.

Definition from_hex (s : string) : list byte := decode (list_ascii_of_string s).

End Hex.

Global Arguments Hex.to_hex : simpl never.
Global Arguments Hex.from_hex : simpl never.

(** ** JavaScript values, the heap and the effects of merkle.js *)

Module JS.

Abbreviation loc := nat (only parsing).

Inductive number :=
| NInt (z : Z)                (* an integral finite number *)
| NFrac                       (* a finite number that is not an integer *)
| NNaN
| NInfinity (negative : bool).

Inductive value :=
| VUndefined
| VNull
| VBool (b : bool)
| VNumber (n : number)
| VString (s : string)
| VObject (l : loc).

Inductive object :=
| OArray (elems : list value)
| OPlain.

Definition typeof (v : value) : string :=
  match v with
  | VUndefined => "undefined"
  | VNull => "object"
  | VBool _ => "boolean"
  | VNumber _ => "number"
  | VString _ => "string"
  | VObject _ => "object"
  end.

Inductive message :=
| ExpectedArray (got : string)
| EmptyHashes
| InvalidHexAt (index : Z)
| NotAString
| BadFilePath
| BadChunkSize.

Inductive error :=
| TypeError (m : message)
| RangeError (m : message)
| SystemError (code : string).

(** The heap holds the arrays; [hashed] logs every message given to SHA-256. *)
Record state := State {
  heap : list object;
  hashed : list (list byte) }.

Inductive result (A : Type) :=
| Ret (a : A)
| Throw (e : error)
| OutOfFuel.
Arguments Ret {A} a.
Arguments Throw {A} e.
Arguments OutOfFuel {A}.

Definition M (A : Type) : Type := state -> result A * state.

Definition ret {A} (a : A) : M A := fun st => (Ret a, st).
Definition throw {A} (e : error) : M A := fun st => (Throw e, st).
Definition out_of_fuel {A} : M A := fun st => (OutOfFuel, st).
Definition bind {A B} (c : M A) (k : A -> M B) : M B :=
  fun st =>
    match c st with
    | (Ret a, st') => k a st'
    | (Throw e, st') => (Throw e, st')
    | (OutOfFuel, st') => (OutOfFuel, st')
    end.

Notation "'let!' x ':=' c 'in' k" := (bind c (fun x => k))
  (at level 10, x name, c at level 200, k at level 200).

(** The elements of the array at [l]; a reference to anything else has none. *)
Definition elements (l : loc) : M (list value) :=
  fun st =>
    (Ret match heap st !! l with
         | Some (OArray es) => es
         | _ => []
         end, st).

(** The elements of [v] in [st] when [v] refers to an array. *)
Definition array_at (st : state) (v : value) : option (list value) :=
  match v with
  | VObject l =>
      match heap st !! l with
      | Some (OArray es) => Some es
      | _ => None
      end
  | _ => None
  end.

Definition Array_isArray (v : value) : M bool :=
  fun st =>
    (Ret match array_at st v with
         | Some _ => true
         | None => false
         end, st).

(** [a.length] *)
Definition array_length (l : loc) : M Z :=
  let! es := elements l in ret (Z.of_nat (length es)).

(** [a[i]]: [undefined] outside the array. *)
Definition array_get (l : loc) (i : Z) : M value :=
  let! es := elements l in
  ret (if i <? 0 then VUndefined else default VUndefined (es !! Z.to_nat i)).

(** An array literal: a fresh object. *)
Definition array_alloc (es : list value) : M loc :=
  fun st => (Ret (length (heap st)),
             State (heap st ++ [OArray es]) (hashed st)).

Definition push_elem (v : value) (o : object) : object :=
  match o with
  | OArray es => OArray (es ++ [v])
  | OPlain => OPlain
  end.

(** [a.push(v)] updates the array in place. *)
Definition array_push (l : loc) (v : value) : M unit :=
  fun st => (Ret tt, State (alter (push_elem v) l (heap st)) (hashed st)).

(** [touches l h h']: [h'] is [h] with at most the object at [l] changed. *)
Definition touches (l : loc) (h h' : list object) : Prop :=
  exists g, h' = alter g l h.

(** [a.findIndex(p)] for a callback without effects; -1 when none matches. *)
Fixpoint findIndex_from (p : value -> bool) (es : list value) (i : Z) : Z :=
  match es with
  | [] => -1
  | e :: es' => if p e then i else findIndex_from p es' (i + 1)
  end.

Definition Array_findIndex (p : value -> bool) (l : loc) : M Z :=
  let! es := elements l in ret (findIndex_from p es 0).

Fixpoint map_values (f : value -> M value) (es : list value) : M (list value) :=
  match es with
  | [] => ret []
  | e :: es' => let! v := f e in let! vs := map_values f es' in ret (v :: vs)
  end.

(** [a.map(f)]: the callback runs on the elements in order and the results
    are a fresh array. *)
Definition Array_map (f : value -> M value) (l : loc) : M loc :=
  let! es := elements l in let! vs := map_values f es in array_alloc vs.

Definition lower_char (c : ascii) : ascii :=
  let n := N_of_ascii c in
  if ((65 <=? n) && (n <=? 90))%N then ascii_of_N (n + 32) else c.

(** [s.toLowerCase()] on the letters A to Z. *)
Definition toLowerCase (s : string) : string :=
  string_of_list_ascii (map lower_char (list_ascii_of_string s)).

(** [h.toLowerCase()] as a method call: only strings have the method. *)
Definition call_toLowerCase (h : value) : M value :=
  match h with
  | VString s => ret (VString (toLowerCase s))
  | _ => throw (TypeError NotAString)
  end.

(** [Buffer.from(v, 'hex')] for a string [v], and the [TypeError] Node
    raises for [undefined], [null], booleans and numbers. From an array, an
    array-like object or a Buffer Node builds a buffer out of the elements;
    that is not represented here (the branch for references is a
    placeholder), and no statement below depends on it: [buildMerkleRoot]
    hands [hashPair] validated strings only. *)
Definition Buffer_from_hex (v : value) : M (list byte) :=
  match v with
  | VString s => ret (Hex.from_hex s)
  | _ => throw (TypeError NotAString)
  end.

(** [createHash('sha256').update(data).digest('hex')] *)
Definition sha256_hex (data : list byte) : M string :=
  fun st => (Ret (Hex.to_hex (SHA256.sha256 data)),
             State (heap st) (hashed st ++ [data])).

End JS.

(** ** backend/src/core/merkle.js *)

Module Merkle.
Import JS.

Definition is_lower_hex (c : ascii) : bool :=
  let n := N_of_ascii c in
  (((48 <=? n) && (n <=? 57)) || ((97 <=? n) && (n <=? 102)))%N.

(** [/^[0-9a-f]{64}$/.test(s)] *)
Definition regex_hex64 (s : string) : bool :=
  (Z.of_nat (String.length s) =? 64) && forallb is_lower_hex (list_ascii_of_string s).

Definition isValidSHA256Hex (hash : value) : bool :=
  String.eqb (typeof hash) "string" &&
  match hash with
  | VString s => regex_hex64 s
  | _ => false
  end.

Definition hashPair (leftHex rightHex : value) : M value :=
  let! leftBuffer := Buffer_from_hex leftHex in
  let! rightBuffer := Buffer_from_hex rightHex in
  let! digest := sha256_hex (leftBuffer ++ rightBuffer) in
  ret (VString digest).

(** [for (let i = ...; i < nodes.length; i += 2) parent.push(hashPair(nodes[i], nodes[i + 1]))] *)
Fixpoint pair_loop (fuel : nat) (nodes parent : loc) (i : Z) : M unit :=
  match fuel with
  | O => out_of_fuel
  | S fuel' =>
      let! n := array_length nodes in
      if i <? n then
        let! a := array_get nodes i in
        let! b := array_get nodes (i + 1) in
        let! h := hashPair a b in
        let! _ := array_push parent h in
        pair_loop fuel' nodes parent (i + 2)
      else ret tt
  end.

Definition buildNextLevel (fuel : nat) (level : loc) : M loc :=
  let! n := array_length level in
  let! nodes := (if n mod 2 =? 0 then ret level
                 else let! es := elements level in
                      let! last := array_get level (n - 1) in
                      array_alloc (es ++ [last])) in
  let! parent := array_alloc [] in
  let! _ := pair_loop fuel nodes parent 0 in
  ret parent.

(** [while (currentLevel.length > 1) currentLevel = buildNextLevel(currentLevel)] *)
Fixpoint level_loop (fuel : nat) (currentLevel : loc) : M loc :=
  match fuel with
  | O => out_of_fuel
  | S fuel' =>
      let! n := array_length currentLevel in
      if 1 <? n then
        let! next := buildNextLevel fuel' currentLevel in
        level_loop fuel' next
      else ret currentLevel
  end.

Definition buildMerkleRoot (fuel : nat) (hashes : value) : M value :=
  let! isArray := Array_isArray hashes in
  if negb isArray then throw (TypeError (ExpectedArray (typeof hashes)))
  else
    match hashes with
    | VObject l =>
        let! n := array_length l in
        if n =? 0 then throw (RangeError EmptyHashes)
        else
          let! invalidIndex := Array_findIndex (fun h => negb (isValidSHA256Hex h)) l in
          if negb (invalidIndex =? -1) then throw (TypeError (InvalidHexAt invalidIndex))
          else if n =? 1 then array_get l 0
          else
            let! currentLevel := Array_map call_toLowerCase l in
            let! root_level := level_loop fuel currentLevel in
            array_get root_level 0
    | _ => throw (TypeError (ExpectedArray (typeof hashes)))  (* not reached *)
    end.

End Merkle.

(** ** Read streams, promises and Hash objects *)

Module Stream.
Import JS.

(** How a read stream finishes: 'end', or 'error' with the error of fs. *)
Inductive ending :=
| Ended
| Failed (err : error).

(** One run of [fs.createReadStream]: the buffers of the 'data' events in
    order, then the final event. *)
Record run := Run {
  delivered : list (list byte);
  finish : ending }.

(** The state in which the promise returned to the caller is left. *)
Inductive settled (A : Type) :=
| Resolved (a : A)
| Rejected (e : error)
| Unfinished.
Arguments Resolved {A} a.
Arguments Rejected {A} e.
Arguments Unfinished {A}.

Record Hash := MkHash { absorbed : list byte }.

Definition createHash : Hash := MkHash [].
Definition update (h : Hash) (data : list byte) : Hash := MkHash (absorbed h ++ data).
Definition digest_hex (h : Hash) : string := Hex.to_hex (SHA256.sha256 (absorbed h)).

(** [buf.slice(start, end)]: negative indices count from the end, both are
    clamped to the buffer, an empty range gives an empty buffer. *)
Definition clamp_index (len i : Z) : Z :=
  if i <? 0 then Z.max (len + i) 0 else Z.min i len.

Definition Buffer_slice (buf : list byte) (start end_ : Z) : list byte :=
  let len := Z.of_nat (length buf) in
  let s := clamp_index len start in
  let e := clamp_index len end_ in
  if e <? s then [] else take (Z.to_nat (e - s)) (drop (Z.to_nat s) buf).

End Stream.

(** ** backend/src/core/chunkHasher.js *)

Module ChunkHasher.
Import JS Stream.

Definition on_data (chunkHashes : list string) (chunk : list byte) : list string :=
  let hash := digest_hex (update createHash chunk) in
  chunkHashes ++ [hash].

(** [chunkSize] (default 4 MiB) is only handed to the stream as its
    [highWaterMark]; [r] is the run of that stream. *)
Definition generateChunkHashes (filePath chunkSize : value) (r : run)
  : settled (list string) :=
  let chunkHashes := fold_left on_data (delivered r) [] in
  match finish r with
  | Ended => Resolved chunkHashes
  | Failed err => Rejected err
  end.

End ChunkHasher.

(** ** backend/src/core/generateChunkHashes.js *)

Module GenerateChunkHashes.
Import JS Stream.

Definition DEFAULT_CHUNK_SIZE : Z := 1024 * 1024.

Record progress := Progress {
  hashes : list string;
  currentHash : Hash;
  bytesInCurrentChunk : Z }.

Definition is_white_space (c : ascii) : bool :=
  let n := N_of_ascii c in
  (((9 <=? n) && (n <=? 13)) || (n =? 32) || (n =? 160))%N.

Fixpoint trim_start (cs : list ascii) : list ascii :=
  match cs with
  | c :: cs' => if is_white_space c then trim_start cs' else cs
  | [] => []
  end.

(** [s.trim()] *)
Definition trim (s : string) : string :=
  string_of_list_ascii
    (rev (trim_start (rev (trim_start (list_ascii_of_string s))))).

Definition Number_isInteger (v : value) : bool :=
  match v with
  | VNumber (NInt _) => true
  | _ => false
  end.

Definition integer_of (v : value) : Z :=
  match v with
  | VNumber (NInt z) => z
  | _ => 0
  end.

(** The [while (offset < chunk.length)] loop of the 'data' handler. *)
Fixpoint data_loop (fuel : nat) (chunkSize : Z) (chunk : list byte)
    (offset : Z) (p : progress) : option progress :=
  match fuel with
  | O => None
  | S fuel' =>
      if offset <? Z.of_nat (length chunk) then
        let remaining := chunkSize - bytesInCurrentChunk p in
        let slice := Buffer_slice chunk offset (offset + remaining) in
        let hash := update (currentHash p) slice in
        let bytes := bytesInCurrentChunk p + Z.of_nat (length slice) in
        let offset' := offset + Z.of_nat (length slice) in
        let p' := if bytes =? chunkSize
                  then Progress (hashes p ++ [digest_hex hash]) createHash 0
                  else Progress (hashes p) hash bytes in
        data_loop fuel' chunkSize chunk offset' p'
      else Some p
  end.

Definition on_data (fuel : nat) (chunkSize : Z) (p : progress) (chunk : list byte)
  : option progress :=
  data_loop fuel chunkSize chunk 0 p.

Fixpoint deliver (fuel : nat) (chunkSize : Z) (chunks : list (list byte))
    (p : progress) : option progress :=
  match chunks with
  | [] => Some p
  | chunk :: rest =>
      match on_data fuel chunkSize p chunk with
      | Some p' => deliver fuel chunkSize rest p'
      | None => None
      end
  end.

Definition on_end (p : progress) : list string :=
  if 0 <? bytesInCurrentChunk p
  then hashes p ++ [digest_hex (currentHash p)]
  else hashes p.

(** [chunkSizeArg] is the second argument as passed ([undefined] when it is
    left out); [r] is the run of the stream opened on the resolved path. *)
Definition generateChunkHashes (fuel : nat) (filePath chunkSizeArg : value)
    (r : run) : settled (list string) :=
  let chunkSize := match chunkSizeArg with
                   | VUndefined => VNumber (NInt DEFAULT_CHUNK_SIZE)
                   | v => v
                   end in
  if negb (String.eqb (typeof filePath) "string")
     || match filePath with
        | VString s => String.eqb (trim s) ""
        | _ => false
        end
  then Rejected (TypeError BadFilePath)
  else if negb (Number_isInteger chunkSize) || (integer_of chunkSize <=? 0)
  then Rejected (RangeError BadChunkSize)
  else
    match deliver fuel (integer_of chunkSize) (delivered r) (Progress [] createHash 0) with
    | None => Unfinished
    | Some p =>
        match finish r with
        | Ended => Resolved (on_end p)
        | Failed err => Rejected err
        end
    end.

End GenerateChunkHashes.

(** ** backend/src/core/hasher.js *)

Module Hasher.
Import JS Stream.

Definition generateFileHash (filePath : value) (r : run) : settled string :=
  let hash := fold_left update (delivered r) createHash in
  match finish r with
  | Ended => Resolved (digest_hex hash)
  | Failed err => Rejected err
  end.

End Hasher.

(** ** The reference partition of a byte source into windows *)

Module Windows.

Fixpoint split_by (fuel size : nat) (src : list byte) : list (list byte) :=
  match fuel with
  | O => []
  | S fuel' =>
      match src with
      | [] => []
      | _ => take size src :: split_by fuel' size (drop size src)
      end
  end.

(** Consecutive windows of [size] bytes; the last one may be shorter. *)
Definition windows (size : Z) (src : list byte) : list (list byte) :=
  split_by (length src) (Z.to_nat size) src.

Definition sha256_hex (window : list byte) : string :=
  Hex.to_hex (SHA256.sha256 window).

End Windows.

(** ** The level reduction as the specification words it *)

Module MerkleSpec.

(** [H(raw_bytes(l) || raw_bytes(r))] as digest text. *)
Definition hash_raw (l r : string) : string :=
  Hex.to_hex (SHA256.sha256 (Hex.from_hex l ++ Hex.from_hex r)).

(** [parent[i] = H(raw(level[2i]) || raw(level[2i+1]))]; the last element of
    a level of odd length is paired with itself. *)
Definition parent_level (level parent : list string) : Prop :=
  length parent = ((length level + 1) / 2)%nat /\
  forall (i : nat) (a : string),
    level !! (2 * i)%nat = Some a ->
    parent !! i = Some (hash_raw a (default a (level !! (2 * i + 1)%nat))).

(** Levels are reduced until one digest is left. *)
Inductive reduces : list string -> string -> Prop :=
| reduces_root (root : string) : reduces [root] root
| reduces_level (level parent : list string) (root : string) :
    (1 < length level)%nat ->
    parent_level level parent ->
    reduces parent root ->
    reduces level root.

(** The pairs hashed at one level. *)
Fixpoint pairs_of (level : list string) : list (string * string) :=
  match level with
  | a :: b :: rest => (a, b) :: pairs_of rest
  | [a] => [(a, a)]
  | [] => []
  end.

(** A string of exactly 64 hexadecimal characters, in any letter case. *)
Definition hex64_any_case (s : string) : bool :=
  (String.length s =? 64)%nat &&
  forallb (fun c => match Hex.hex_value c with Some _ => true | None => false end)
          (list_ascii_of_string s).

Definition any_case_digest (h : JS.value) : bool :=
  match h with
  | JS.VString s => hex64_any_case s
  | _ => false
  end.

(** A string of exactly 64 characters out of 0-9 and a-f. *)
Definition lower_hex64 (h : JS.value) : Prop :=
  exists s, h = JS.VString s /\
    String.length s = 64%nat /\
    Forall (fun c => In c (list_ascii_of_string "0123456789abcdef"))
           (list_ascii_of_string s).

(** What the caller passes for a sequence of digests. *)
Definition leaves (xs : list string) : list JS.value := map JS.VString xs.

Definition valid_digest (s : string) : Prop := Merkle.regex_hex64 s = true.

(** The number of leaves of the argument, 0 when it is not an array. *)
Definition leaf_count (st : JS.state) (v : JS.value) : nat :=
  match JS.array_at st v with
  | Some es => length es
  | None => 0
  end.

Definition flatten (ps : list (string * string)) : list string :=
  flat_map (fun p => [fst p; snd p]) ps.

Definition next_level (level : list string) : list string :=
  map (fun p => hash_raw (fst p) (snd p)) (pairs_of level).

End MerkleSpec.

(** ** Sample inputs *)

Module Samples.
Import JS.

Definition digest_a : string :=
  "aaaaaaaaaaaaaaaaaaaaaaaaaaaaaaaaaaaaaaaaaaaaaaaaaaaaaaaaaaaaaaaa".
Definition digest_b : string :=
  "bbbbbbbbbbbbbbbbbbbbbbbbbbbbbbbbbbbbbbbbbbbbbbbbbbbbbbbbbbbbbbbb".
Definition digest_c : string :=
  "cccccccccccccccccccccccccccccccccccccccccccccccccccccccccccccccc".

(** Sixty-four hexadecimal characters, all of them upper case. *)
Definition upper_A : string :=
  "AAAAAAAAAAAAAAAAAAAAAAAAAAAAAAAAAAAAAAAAAAAAAAAAAAAAAAAAAAAAAAAA".

(** SHA-256 of "abc", in upper and in lower case. *)
Definition abc_upper : string :=
  "BA7816BF8F01CFEA414140DE5DAE2223B00361A396177A9CB410FF61F20015AD".
Definition abc_lower : string :=
  "ba7816bf8f01cfea414140de5dae2223b00361a396177a9cb410ff61f20015ad".

(** A heap whose only object is the array of the given elements. *)
Definition one_array (es : list value) : state := State [OArray es] [].

Definition three_leaves : state :=
  one_array (MerkleSpec.leaves [digest_a; digest_b; digest_c]).

End Samples.

(** ** What the 'data' handler of generateChunkHashes.js maintains *)

Module ChunkSpec.
Import Stream GenerateChunkHashes.

(** After the bytes [src], the digests pushed so far are those of complete
    windows [ws] and the open Hash object has absorbed the bytes after them. *)
Definition tracks (chunkSize : Z) (src : list byte) (p : progress) : Prop :=
  exists ws : list (list byte),
    Forall (fun w => Z.of_nat (length w) = chunkSize) ws /\
    src = concat ws ++ absorbed (currentHash p) /\
    hashes p = map Windows.sha256_hex ws /\
    bytesInCurrentChunk p = Z.of_nat (length (absorbed (currentHash p))) /\
    bytesInCurrentChunk p < chunkSize.

(** A path that passes the check on [filePath]. *)
Definition usable_path (filePath : JS.value) : Prop :=
  exists s, filePath = JS.VString s /\ String.eqb (trim s) "" = false.

(** The chunk size in force: the argument when it is a positive integer,
    the default when the argument is left out. *)
Definition effective_chunk_size (chunkSizeArg : JS.value) : option Z :=
  match chunkSizeArg with
  | JS.VUndefined => Some DEFAULT_CHUNK_SIZE
  | JS.VNumber (JS.NInt z) => if 0 <? z then Some z else None
  | _ => None
  end.

(** A stream that delivers the bytes [src], in any number of pieces. *)
Definition delivers (r : run) (src : list byte) : Prop :=
  concat (delivered r) = src.

(** Fuel that lets every 'data' handler of the run finish. *)
Definition enough (fuel : nat) (r : run) : Prop :=
  Forall (fun chunk => (length chunk < fuel)%nat) (delivered r).

(** The two bytes "ab", and a path to read them from. *)
Definition ab : list byte := [x61; x62].
Definition some_path : JS.value := JS.VString "test.txt".

End ChunkSpec.

(** ** What a reduction costs *)

Module MerkleCost.

(** The bytes given to SHA-256 for one pair. *)
Definition message (p : string * string) : list byte :=
  Hex.from_hex (fst p) ++ Hex.from_hex (snd p).

(** The messages hashed while [level] is reduced, level after level. *)
Fixpoint messages (fuel : nat) (level : list string) : list (list byte) :=
  match fuel with
  | O => []
  | S fuel' =>
      if (1 <? length level)%nat
      then map message (MerkleSpec.pairs_of level)
             ++ messages fuel' (MerkleSpec.next_level level)
      else []
  end.

(** The number of pairs hashed for [n] leaves. *)
Fixpoint calls (fuel n : nat) : nat :=
  match fuel with
  | O => 0
  | S fuel' =>
      if (1 <? n)%nat then ((n + 1) / 2 + calls fuel' ((n + 1) / 2))%nat else 0%nat
  end.

End MerkleCost.

(** * Properties *)

(** ** SHA-256 and hexadecimal text *)

Example sha256_abc :
  Hex.to_hex (SHA256.sha256 [x61; x62; x63]) =
  "ba7816bf8f01cfea414140de5dae2223b00361a396177a9cb410ff61f20015ad"%string.
Proof. vm_compute. reflexivity. Qed.

Example sha256_empty :
  Hex.to_hex (SHA256.sha256 []) =
  "e3b0c44298fc1c149afbf4c8996fb92427ae41e4649b934ca495991b7852b855"%string.
Proof. vm_compute. reflexivity. Qed.

Lemma sha256_length (msg : list byte) : length (SHA256.sha256 msg) = 32%nat.
Proof.
  unfold SHA256.sha256, SHA256.state_bytes.
  rewrite !length_app. reflexivity.
Qed.

Lemma string_length_of_list (cs : list ascii) :
  String.length (string_of_list_ascii cs) = length cs.
Proof. induction cs as [|c cs IH]; simpl; congruence. Qed.

Lemma byte_to_hex_lower (b : byte) :
  forallb Merkle.is_lower_hex (Hex.byte_to_hex b) = true.
Proof. destruct b; reflexivity. Qed.

Lemma decode_byte_to_hex (b : byte) (cs : list ascii) :
  Hex.decode (Hex.byte_to_hex b ++ cs) = b :: Hex.decode cs.
Proof. destruct b; reflexivity. Qed.

Lemma to_hex_length (bs : list byte) :
  String.length (Hex.to_hex bs) = (2 * length bs)%nat.
Proof.
  unfold Hex.to_hex. rewrite string_length_of_list.
  induction bs as [|b bs IH]; simpl in *; lia.
Qed.

Lemma to_hex_lower (bs : list byte) :
  forallb Merkle.is_lower_hex (list_ascii_of_string (Hex.to_hex bs)) = true.
Proof.
  unfold Hex.to_hex. rewrite list_ascii_of_string_of_list_ascii.
  induction bs as [|b bs IH]; [reflexivity|].
  change (flat_map Hex.byte_to_hex (b :: bs))
    with (Hex.byte_to_hex b ++ flat_map Hex.byte_to_hex bs).
  rewrite forallb_app, byte_to_hex_lower, IH. reflexivity.
Qed.

(** Decoding the hexadecimal text of a buffer gives the buffer back. *)
Lemma from_hex_to_hex (bs : list byte) : Hex.from_hex (Hex.to_hex bs) = bs.
Proof.
  unfold Hex.from_hex, Hex.to_hex. rewrite list_ascii_of_string_of_list_ascii.
  induction bs as [|b bs IH]; [reflexivity|].
  change (flat_map Hex.byte_to_hex (b :: bs))
    with (Hex.byte_to_hex b ++ flat_map Hex.byte_to_hex bs).
  rewrite decode_byte_to_hex, IH. reflexivity.
Qed.

Lemma digest_is_valid (msg : list byte) :
  Merkle.isValidSHA256Hex (JS.VString (Hex.to_hex (SHA256.sha256 msg))) = true.
Proof.
  unfold Merkle.isValidSHA256Hex, Merkle.regex_hex64. simpl JS.typeof.
  rewrite to_hex_length, sha256_length, to_hex_lower. reflexivity.
Qed.

Lemma lower_char_lower_hex (c : ascii) :
  Merkle.is_lower_hex c = true -> JS.lower_char c = c.
Proof.
  unfold Merkle.is_lower_hex, JS.lower_char.
  destruct (N_of_ascii c) as [|p] eqn:E; [reflexivity|].
  intros H.
  destruct ((65 <=? N.pos p)%N && (N.pos p <=? 90)%N) eqn:E1; [|reflexivity].
  exfalso.
  apply andb_prop in E1 as [A B].
  apply N.leb_le in A, B.
  apply orb_prop in H as [H|H]; apply andb_prop in H as [C D];
    apply N.leb_le in C, D; lia.
Qed.

Lemma toLowerCase_lower_hex (s : string) :
  forallb Merkle.is_lower_hex (list_ascii_of_string s) = true ->
  JS.toLowerCase s = s.
Proof.
  unfold JS.toLowerCase. intros H.
  rewrite <- (string_of_list_ascii_of_string s) at 2. f_equal.
  induction (list_ascii_of_string s) as [|c cs IH]; [reflexivity|].
  simpl in H. apply andb_prop in H as [Hc Hcs].
  simpl. rewrite lower_char_lower_hex, IH; auto.
Qed.

(** ** Running the effects of merkle.js *)

Import JS.

Lemma bind_ret {A B} (c : M A) (k : A -> M B) st a st' :
  c st = (Ret a, st') -> bind c k st = k a st'.
Proof. unfold bind. intros ->. reflexivity. Qed.

Lemma bind_throw {A B} (c : M A) (k : A -> M B) st e st' :
  c st = (Throw e, st') -> bind c k st = (Throw e, st').
Proof. unfold bind. intros ->. reflexivity. Qed.

Lemma run_elements l es st :
  heap st !! l = Some (OArray es) -> elements l st = (Ret es, st).
Proof. unfold elements. intros ->. reflexivity. Qed.

Lemma run_array_length l es st :
  heap st !! l = Some (OArray es) ->
  array_length l st = (Ret (Z.of_nat (length es)), st).
Proof.
  intros H. unfold array_length.
  rewrite (bind_ret _ _ _ _ _ (run_elements _ _ _ H)). reflexivity.
Qed.

Lemma run_array_get l es st (i : nat) :
  heap st !! l = Some (OArray es) ->
  array_get l (Z.of_nat i) st = (Ret (default VUndefined (es !! i)), st).
Proof.
  intros H. unfold array_get.
  rewrite (bind_ret _ _ _ _ _ (run_elements _ _ _ H)). unfold ret.
  destruct (Z.of_nat i <? 0) eqn:E; [apply Z.ltb_lt in E; lia|].
  rewrite Nat2Z.id. reflexivity.
Qed.

Lemma alter_as_insert {A} (f : A -> A) (i : nat) (l : list A) (x : A) :
  l !! i = Some x -> alter f i l = <[i := f x]> l.
Proof.
  intros H. apply list_eq. intros j.
  destruct (decide (i = j)) as [<-|Hne].
  - rewrite list_lookup_alter_eq, H, list_lookup_insert_eq; [reflexivity|].
    eapply lookup_lt_Some; eauto.
  - rewrite list_lookup_alter_ne, list_lookup_insert_ne by done. reflexivity.
Qed.

(** Two elements at a time. *)
Lemma pairs_ind (P : list string -> Prop) :
  P [] -> (forall a, P [a]) -> (forall a b l, P l -> P (a :: b :: l)) ->
  forall l, P l.
Proof.
  intros H0 H1 H2.
  assert (forall l, P l /\ forall a, P (a :: l)) as H.
  { induction l as [|b l [IH1 IH2]]; split; auto. }
  intros l. apply H.
Qed.

Lemma next_level_length (level : list string) :
  length (MerkleSpec.next_level level) = ((length level + 1) / 2)%nat.
Proof.
  unfold MerkleSpec.next_level. rewrite length_map.
  induction level as [| a | a b l IH] using pairs_ind; [reflexivity..|].
  simpl MerkleSpec.pairs_of. simpl length. rewrite IH.
  replace (S (S (length l)) + 1)%nat with ((length l + 1) + 1 * 2)%nat by lia.
  rewrite Nat.div_add by lia. lia.
Qed.

Lemma next_level_parent (level : list string) :
  MerkleSpec.parent_level level (MerkleSpec.next_level level).
Proof.
  split; [apply next_level_length|].
  unfold MerkleSpec.next_level.
  induction level as [| a | a b l IH] using pairs_ind; intros i x Hx.
  - destruct i; discriminate.
  - destruct i as [|i]; [|destruct i; discriminate].
    simpl in Hx. injection Hx as <-. reflexivity.
  - destruct i as [|i].
    + simpl in Hx. injection Hx as <-. reflexivity.
    + replace (2 * S i)%nat with (S (S (2 * i))) in Hx by lia.
      replace (2 * S i + 1)%nat with (S (S (2 * i + 1))) by lia.
      simpl in *. apply IH. exact Hx.
Qed.

Lemma parent_level_unique (level p q : list string) :
  MerkleSpec.parent_level level p -> MerkleSpec.parent_level level q -> p = q.
Proof.
  intros [Lp Hp] [Lq Hq]. apply list_eq. intros i.
  destruct (level !! (2 * i)%nat) as [a|] eqn:E.
  - rewrite (Hp _ _ E), (Hq _ _ E). reflexivity.
  - apply lookup_ge_None in E.
    assert ((length level + 1) / 2 < S i)%nat as Hdiv
      by (apply Nat.Div0.div_lt_upper_bound; lia).
    assert (length p <= i)%nat by lia.
    assert (length q <= i)%nat by lia.
    rewrite !(proj2 (lookup_ge_None _ _)) by assumption. reflexivity.
Qed.

Lemma reduces_unique (level : list string) (r r' : string) :
  MerkleSpec.reduces level r -> MerkleSpec.reduces level r' -> r = r'.
Proof.
  intros H. revert r'.
  induction H as [root | level parent root Hlen Hp Hred IH]; intros r' H'.
  - inversion H' as [|? ? ? Hlen' ]; subst; [reflexivity|]. simpl in Hlen'. lia.
  - inversion H' as [|? parent' ? Hlen' Hp' Hred']; subst.
    + simpl in Hlen. lia.
    + apply IH. rewrite (parent_level_unique _ _ _ Hp Hp'). exact Hred'.
Qed.

Lemma run_hashPair (a b : string) st :
  exists st',
    Merkle.hashPair (VString a) (VString b) st
      = (Ret (VString (MerkleSpec.hash_raw a b)), st') /\
    heap st' = heap st.
Proof. eexists. split; reflexivity. Qed.

Lemma run_array_push l v es st :
  heap st !! l = Some (OArray es) ->
  exists st',
    array_push l v st = (Ret tt, st') /\
    heap st' = <[l := OArray (es ++ [v])]> (heap st).
Proof.
  intros H. eexists. split; [reflexivity|].
  simpl. rewrite (alter_as_insert _ _ _ _ H). reflexivity.
Qed.

Lemma flatten_cons a b ps :
  MerkleSpec.flatten ((a, b) :: ps) = a :: b :: MerkleSpec.flatten ps.
Proof. reflexivity. Qed.

(** The [for] loop hashes the remaining pairs of [nodes] onto [parent]. *)
Lemma pair_loop_run (ps : list (string * string)) :
  forall (seen : list string) (acc : list value) (fuel : nat) st (nodes parent : loc),
    nodes <> parent ->
    heap st !! nodes = Some (OArray (map VString (seen ++ MerkleSpec.flatten ps))) ->
    heap st !! parent = Some (OArray acc) ->
    (length ps < fuel)%nat ->
    exists st',
      Merkle.pair_loop fuel nodes parent (Z.of_nat (length seen)) st = (Ret tt, st') /\
      heap st' =
        <[parent := OArray (acc ++ map (fun p => VString (MerkleSpec.hash_raw (fst p) (snd p))) ps)]>
          (heap st).
Proof.
  induction ps as [|[a b] ps IH]; intros seen acc fuel st nodes parent Hne Hn Hp Hfuel;
    (destruct fuel as [|fuel]; [simpl in Hfuel; lia|]).
  - exists st. simpl Merkle.pair_loop.
    change (MerkleSpec.flatten []) with (@nil string) in *.
    rewrite (bind_ret _ _ _ _ _ (run_array_length _ _ _ Hn)).
    rewrite length_map, length_app. cbn [length].
    rewrite (proj2 (Z.ltb_ge _ _)) by lia.
    split; [reflexivity|].
    simpl. rewrite app_nil_r, list_insert_id; auto.
  - simpl Merkle.pair_loop. rewrite flatten_cons in Hn.
    rewrite (bind_ret _ _ _ _ _ (run_array_length _ _ _ Hn)).
    rewrite length_map, length_app. cbn [length].
    rewrite (proj2 (Z.ltb_lt _ _)) by lia.
    rewrite (bind_ret _ _ _ _ _ (run_array_get _ _ _ _ Hn)).
    replace (Z.of_nat (length seen) + 1) with (Z.of_nat (S (length seen))) by lia.
    rewrite (bind_ret _ _ _ _ _ (run_array_get _ _ _ _ Hn)).
    rewrite !list_lookup_fmap.
    rewrite lookup_app_r by lia. rewrite Nat.sub_diag.
    rewrite lookup_app_r by lia.
    replace (S (length seen) - length seen)%nat with 1%nat by lia.
    simpl default.
    destruct (run_hashPair a b st) as (st1 & Hrun1 & Hheap1).
    rewrite (bind_ret _ _ _ _ _ Hrun1).
    rewrite <- Hheap1 in Hn, Hp.
    destruct (run_array_push parent (VString (MerkleSpec.hash_raw a b)) acc st1 Hp)
      as (st2 & Hrun2 & Hheap2).
    rewrite (bind_ret _ _ _ _ _ Hrun2).
    assert (heap st2 !! nodes = Some (OArray (map VString ((seen ++ [a; b]) ++ MerkleSpec.flatten ps)))) as Hn2.
    { rewrite Hheap2, list_lookup_insert_ne by auto.
      rewrite <- app_assoc. exact Hn. }
    assert (heap st2 !! parent = Some (OArray (acc ++ [VString (MerkleSpec.hash_raw a b)]))) as Hp2.
    { rewrite Hheap2. apply list_lookup_insert_eq. eapply lookup_lt_Some; eauto. }
    destruct (IH (seen ++ [a; b]) _ fuel st2 nodes parent Hne Hn2 Hp2) as (st3 & Hrun3 & Hheap3);
      [simpl in Hfuel; lia|].
    exists st3. split.
    + rewrite length_app in Hrun3. simpl length in Hrun3.
      replace (Z.of_nat (length seen) + 2) with (Z.of_nat (length seen + 2)) by lia.
      exact Hrun3.
    + rewrite Hheap3, Hheap2, list_insert_insert_eq, Hheap1.
      rewrite <- app_assoc. reflexivity.
Qed.

Lemma flatten_pairs_even (xs : list string) :
  Z.of_nat (length xs) mod 2 = 0 ->
  MerkleSpec.flatten (MerkleSpec.pairs_of xs) = xs.
Proof.
  induction xs as [| a | a b l IH] using pairs_ind; intros H.
  - reflexivity.
  - discriminate.
  - simpl. f_equal. f_equal. apply IH.
    simpl length in H.
    replace (Z.of_nat (S (S (length l)))) with (Z.of_nat (length l) + 1 * 2) in H by lia.
    rewrite Z.mod_add in H by lia. exact H.
Qed.

Lemma flatten_pairs_odd (xs : list string) :
  Z.of_nat (length xs) mod 2 <> 0 ->
  map VString (MerkleSpec.flatten (MerkleSpec.pairs_of xs)) =
  map VString xs ++ [default VUndefined (map VString xs !! (length xs - 1)%nat)].
Proof.
  induction xs as [| a | a b l IH] using pairs_ind; intros H.
  - exfalso. apply H. reflexivity.
  - reflexivity.
  - assert (Z.of_nat (length l) mod 2 <> 0) as Hl.
    { simpl length in H.
      replace (Z.of_nat (S (S (length l)))) with (Z.of_nat (length l) + 1 * 2) in H by lia.
      rewrite Z.mod_add in H by lia. exact H. }
    assert (length l <> 0)%nat as Hpos.
    { intros E. rewrite E in Hl. apply Hl. reflexivity. }
    simpl. f_equal. f_equal. rewrite (IH Hl). f_equal.
    destruct (length l) as [|k]; [lia|].
    simpl. rewrite Nat.sub_0_r. reflexivity.
Qed.

Lemma run_array_alloc es st :
  array_alloc es st = (Ret (length (heap st)), State (heap st ++ [OArray es]) (hashed st)).
Proof. reflexivity. Qed.

(** A fresh [parent] receives the hashes of the pairs of [nodes]. *)
Lemma pair_up_run (ps : list (string * string)) (fuel : nat) st (nodes : loc) :
  heap st !! nodes = Some (OArray (map VString (MerkleSpec.flatten ps))) ->
  (length ps < fuel)%nat ->
  exists st',
    (let! parent := array_alloc [] in
     let! _ := Merkle.pair_loop fuel nodes parent 0 in
     ret parent) st = (Ret (length (heap st)), st') /\
    heap st' =
      heap st ++ [OArray (map (fun p => VString (MerkleSpec.hash_raw (fst p) (snd p))) ps)].
Proof.
  intros Hn Hfuel.
  rewrite (bind_ret _ _ _ _ _ (run_array_alloc _ _)).
  set (st1 := State (heap st ++ [OArray []]) (hashed st)).
  assert (nodes < length (heap st))%nat as Hlt by (eapply lookup_lt_Some; eauto).
  destruct (pair_loop_run ps [] [] fuel st1 nodes (length (heap st))) as (st2 & Hrun & Hheap).
  - lia.
  - simpl. rewrite lookup_app_l by lia. exact Hn.
  - simpl. rewrite lookup_app_r by lia. rewrite Nat.sub_diag. reflexivity.
  - exact Hfuel.
  - exists st2. split.
    + change (Z.of_nat (length [])) with 0 in Hrun.
      rewrite (bind_ret _ _ _ _ _ Hrun). reflexivity.
    + rewrite Hheap. simpl.
      rewrite insert_app_r_alt by lia. rewrite Nat.sub_diag. reflexivity.
Qed.

Lemma pairs_of_length (xs : list string) :
  length (MerkleSpec.pairs_of xs) = ((length xs + 1) / 2)%nat.
Proof.
  rewrite <- next_level_length. unfold MerkleSpec.next_level.
  rewrite length_map. reflexivity.
Qed.

Lemma half_up_le (n : nat) : ((n + 1) / 2 <= n)%nat.
Proof.
  destruct n as [|n]; [reflexivity|].
  assert ((S n + 1) / 2 < S (S n))%nat by (apply Nat.Div0.div_lt_upper_bound; lia).
  assert ((S n + 1) / 2 < S n \/ (S n + 1) / 2 = S n)%nat as [H1|H1] by lia; [lia|].
  pose proof (Nat.Div0.mul_div_le (S n + 1) 2). lia.
Qed.

Lemma half_up_lt (n : nat) : (1 < n)%nat -> ((n + 1) / 2 < n)%nat.
Proof. intros H. apply Nat.Div0.div_lt_upper_bound. lia. Qed.

Lemma half_up_pos (n : nat) : (0 < n)%nat -> (0 < (n + 1) / 2)%nat.
Proof. intros H. apply Nat.div_str_pos. lia. Qed.

(** One call of [buildNextLevel] on a level of digests. *)
Lemma buildNextLevel_run (xs : list string) (fuel : nat) st (level : loc) :
  heap st !! level = Some (OArray (map VString xs)) ->
  ((length xs + 1) / 2 < fuel)%nat ->
  exists st' parent,
    Merkle.buildNextLevel fuel level st = (Ret parent, st') /\
    heap st' !! parent = Some (OArray (map VString (MerkleSpec.next_level xs))) /\
    heap st `prefix_of` heap st'.
Proof.
  intros Hl Hfuel.
  assert (length (MerkleSpec.pairs_of xs) < fuel)%nat as Hps.
  { rewrite pairs_of_length. exact Hfuel. }
  assert (map (fun p => VString (MerkleSpec.hash_raw (fst p) (snd p))) (MerkleSpec.pairs_of xs)
          = map VString (MerkleSpec.next_level xs)) as Hmap.
  { unfold MerkleSpec.next_level. rewrite map_map. reflexivity. }
  unfold Merkle.buildNextLevel.
  rewrite (bind_ret _ _ _ _ _ (run_array_length _ _ _ Hl)).
  rewrite length_map.
  destruct (Z.of_nat (length xs) mod 2 =? 0) eqn:Heven.
  - apply Z.eqb_eq in Heven.
    rewrite (bind_ret _ _ st level st eq_refl).
    rewrite <- (flatten_pairs_even xs Heven) in Hl.
    destruct (pair_up_run _ fuel st level Hl Hps) as (st' & Hrun & Hheap).
    exists st', (length (heap st)). split; [exact Hrun|]. split.
    + rewrite Hheap, lookup_app_r by lia. rewrite Nat.sub_diag, Hmap. reflexivity.
    + rewrite Hheap. apply prefix_app_r. reflexivity.
  - apply Z.eqb_neq in Heven.
    set (st1 := State (heap st ++ [OArray (map VString (MerkleSpec.flatten (MerkleSpec.pairs_of xs)))])
                      (hashed st)).
    assert ((let! es := elements level in
             let! last := array_get level (Z.of_nat (length xs) - 1) in
             array_alloc (es ++ [last])) st = (Ret (length (heap st)), st1)) as Hnodes.
    { rewrite (bind_ret _ _ _ _ _ (run_elements _ _ _ Hl)).
      assert (length xs <> 0)%nat as Hpos.
      { intros E. rewrite E in Heven. apply Heven. reflexivity. }
      replace (Z.of_nat (length xs) - 1) with (Z.of_nat (length xs - 1)) by lia.
      rewrite (bind_ret _ _ _ _ _ (run_array_get _ _ _ _ Hl)).
      rewrite run_array_alloc. unfold st1.
      rewrite (flatten_pairs_odd xs Heven). reflexivity. }
    rewrite (bind_ret _ _ _ _ _ Hnodes).
    assert (heap st1 !! length (heap st)
            = Some (OArray (map VString (MerkleSpec.flatten (MerkleSpec.pairs_of xs))))) as Hn.
    { simpl. rewrite lookup_app_r by lia. rewrite Nat.sub_diag. reflexivity. }
    destruct (pair_up_run _ fuel st1 _ Hn Hps) as (st' & Hrun & Hheap).
    exists st', (length (heap st1)). split; [exact Hrun|]. split.
    + rewrite Hheap, lookup_app_r by lia. rewrite Nat.sub_diag, Hmap. reflexivity.
    + rewrite Hheap. simpl. rewrite <- app_assoc. apply prefix_app_r. reflexivity.
Qed.

(** The [while] loop reduces a level of digests to its root. *)
Lemma level_loop_run (fuel : nat) :
  forall (xs : list string) st (level : loc),
    heap st !! level = Some (OArray (map VString xs)) ->
    (0 < length xs < fuel)%nat ->
    exists st' top root,
      Merkle.level_loop fuel level st = (Ret top, st') /\
      heap st' !! top = Some (OArray [VString root]) /\
      MerkleSpec.reduces xs root /\
      heap st `prefix_of` heap st'.
Proof.
  induction fuel as [|fuel IH]; intros xs st level Hl Hlen; [lia|].
  simpl Merkle.level_loop.
  rewrite (bind_ret _ _ _ _ _ (run_array_length _ _ _ Hl)).
  rewrite length_map.
  destruct (1 <? Z.of_nat (length xs)) eqn:Hmore.
  - apply Z.ltb_lt in Hmore.
    destruct (buildNextLevel_run xs fuel st level Hl) as (st1 & parent & Hrun & Hp & Hpre).
    { pose proof (half_up_lt (length xs)). lia. }
    rewrite (bind_ret _ _ _ _ _ Hrun).
    destruct (IH (MerkleSpec.next_level xs) st1 parent Hp) as (st2 & top & root & Hrun2 & Htop & Hred & Hpre2).
    { rewrite next_level_length.
      pose proof (half_up_lt (length xs)). pose proof (half_up_pos (length xs)). lia. }
    exists st2, top, root. repeat split; auto.
    + eapply MerkleSpec.reduces_level; [lia|apply next_level_parent|exact Hred].
    + etransitivity; eauto.
  - apply Z.ltb_ge in Hmore.
    destruct xs as [|x [|y xs]]; simpl in Hlen, Hmore; try lia.
    exists st, level, x. repeat split; auto.
    constructor.
Qed.

(** ** [buildMerkleRoot] case by case *)

Lemma findIndex_from_none (p : value -> bool) (es : list value) :
  forall i, 0 <= i ->
    (findIndex_from p es i =? -1) = forallb (fun e => negb (p e)) es.
Proof.
  induction es as [|e es IH]; intros i Hi; simpl; [reflexivity|].
  destruct (p e); simpl.
  - apply Z.eqb_neq. lia.
  - apply IH. lia.
Qed.

Lemma forallb_double_neg {A} (f : A -> bool) (l : list A) :
  forallb (fun e => negb (negb (f e))) l = forallb f l.
Proof.
  induction l as [|x l IH]; [reflexivity|].
  simpl. rewrite negb_involutive, IH. reflexivity.
Qed.

Lemma findIndex_from_range (p : value -> bool) (es : list value) :
  forall i, 0 <= i ->
    findIndex_from p es i = -1 \/
    i <= findIndex_from p es i < i + Z.of_nat (length es).
Proof.
  induction es as [|e es IH]; intros i Hi; simpl; [left; reflexivity|].
  destruct (p e); [right; lia|].
  destruct (IH (i + 1)) as [H|H]; [lia|left; exact H|right; lia].
Qed.

Lemma valid_is_string (h : value) :
  Merkle.isValidSHA256Hex h = true ->
  exists s, h = VString s /\ MerkleSpec.valid_digest s.
Proof.
  destruct h; try discriminate. simpl. intros H. eexists. split; [reflexivity|exact H].
Qed.

Lemma all_valid_leaves (es : list value) :
  forallb Merkle.isValidSHA256Hex es = true ->
  exists xs, es = MerkleSpec.leaves xs /\ Forall MerkleSpec.valid_digest xs.
Proof.
  induction es as [|e es IH]; simpl; intros H.
  - exists []. split; [reflexivity|constructor].
  - apply andb_prop in H as [He Hes].
    destruct (valid_is_string e He) as (s & -> & Hs).
    destruct (IH Hes) as (xs & -> & Hxs).
    exists (s :: xs). split; [reflexivity|constructor; assumption].
Qed.

Lemma leaves_all_valid (xs : list string) :
  Forall MerkleSpec.valid_digest xs ->
  forallb Merkle.isValidSHA256Hex (MerkleSpec.leaves xs) = true.
Proof.
  induction 1 as [|x xs Hx Hxs IH]; [reflexivity|].
  simpl. rewrite IH, andb_true_r. exact Hx.
Qed.

Lemma valid_digest_lower (s : string) :
  MerkleSpec.valid_digest s -> toLowerCase s = s.
Proof.
  unfold MerkleSpec.valid_digest, Merkle.regex_hex64.
  intros H. apply andb_prop in H as [_ H]. apply toLowerCase_lower_hex. exact H.
Qed.

(** On validated digests the lowercasing [map] copies the array unchanged. *)
Lemma map_toLowerCase_run (xs : list string) st :
  Forall MerkleSpec.valid_digest xs ->
  map_values call_toLowerCase (MerkleSpec.leaves xs) st = (Ret (MerkleSpec.leaves xs), st).
Proof.
  induction 1 as [|x xs Hx Hxs IH]; [reflexivity|].
  simpl. unfold bind at 1. simpl. rewrite (valid_digest_lower x Hx).
  unfold bind at 1. rewrite IH. reflexivity.
Qed.

Lemma array_at_lookup st v es :
  array_at st v = Some es -> exists l, v = VObject l /\ heap st !! l = Some (OArray es).
Proof.
  destruct v; try discriminate. simpl.
  destruct (heap st !! l) as [[es'|]|] eqn:E; try discriminate.
  intros [= <-]. eauto.
Qed.

Ltac enter_array H :=
  unfold Merkle.buildMerkleRoot, Array_isArray; unfold bind at 1;
  rewrite H; cbn [negb]; cbv iota.

Lemma root_not_array (fuel : nat) (v : value) st :
  array_at st v = None ->
  Merkle.buildMerkleRoot fuel v st = (Throw (TypeError (ExpectedArray (typeof v))), st).
Proof.
  intros H. unfold Merkle.buildMerkleRoot, bind, Array_isArray. rewrite H. reflexivity.
Qed.

Lemma root_empty (fuel : nat) (v : value) st :
  array_at st v = Some [] ->
  Merkle.buildMerkleRoot fuel v st = (Throw (RangeError EmptyHashes), st).
Proof.
  intros H. destruct (array_at_lookup _ _ _ H) as (l & -> & Hl).
  enter_array H.
  rewrite (bind_ret _ _ _ _ _ (run_array_length _ _ _ Hl)). reflexivity.
Qed.

Lemma root_invalid (fuel : nat) (v : value) (es : list value) st :
  array_at st v = Some es ->
  forallb Merkle.isValidSHA256Hex es = false ->
  exists i, 0 <= i < Z.of_nat (length es) /\
    Merkle.buildMerkleRoot fuel v st = (Throw (TypeError (InvalidHexAt i)), st).
Proof.
  intros H Hbad. destruct (array_at_lookup _ _ _ H) as (l & -> & Hl).
  set (p := fun h => negb (Merkle.isValidSHA256Hex h)).
  assert ((findIndex_from p es 0 =? -1) = false) as Hidx.
  { rewrite findIndex_from_none by lia.
    unfold p. rewrite forallb_double_neg. exact Hbad. }
  exists (findIndex_from p es 0). split.
  { destruct (findIndex_from_range p es 0) as [E|E]; [lia| |lia].
    rewrite E in Hidx. discriminate. }
  enter_array H.
  rewrite (bind_ret _ _ _ _ _ (run_array_length _ _ _ Hl)).
  destruct es as [|e es]; [discriminate|].
  change (Z.of_nat (length (e :: es)) =? 0) with false. cbv iota.
  unfold Array_findIndex.
  rewrite (bind_ret _ _ _ _ _ (bind_ret _ _ _ _ _ (run_elements _ _ _ Hl))).
  fold p. rewrite Hidx. reflexivity.
Qed.

Lemma root_single (fuel : nat) (v : value) (d : string) st :
  array_at st v = Some [VString d] ->
  MerkleSpec.valid_digest d ->
  Merkle.buildMerkleRoot fuel v st = (Ret (VString d), st).
Proof.
  intros H Hd. destruct (array_at_lookup _ _ _ H) as (l & -> & Hl).
  enter_array H.
  rewrite (bind_ret _ _ _ _ _ (run_array_length _ _ _ Hl)).
  change (Z.of_nat (length [VString d]) =? 0) with false. cbv iota.
  unfold Array_findIndex.
  rewrite (bind_ret _ _ _ _ _ (bind_ret _ _ _ _ _ (run_elements _ _ _ Hl))).
  rewrite findIndex_from_none, forallb_double_neg by lia.
  change [VString d] with (MerkleSpec.leaves [d]).
  rewrite (leaves_all_valid [d]) by (constructor; [exact Hd|constructor]).
  apply (run_array_get l _ st 0%nat Hl).
Qed.

Lemma root_many (fuel : nat) (v : value) (xs : list string) st :
  array_at st v = Some (MerkleSpec.leaves xs) ->
  Forall MerkleSpec.valid_digest xs ->
  (1 < length xs < fuel)%nat ->
  exists st' root,
    Merkle.buildMerkleRoot fuel v st = (Ret (VString root), st') /\
    MerkleSpec.reduces xs root /\
    heap st `prefix_of` heap st'.
Proof.
  intros H Hxs Hlen. destruct (array_at_lookup _ _ _ H) as (l & -> & Hl).
  enter_array H.
  rewrite (bind_ret _ _ _ _ _ (run_array_length _ _ _ Hl)).
  assert (length (MerkleSpec.leaves xs) = length xs) as Hll by apply length_map.
  rewrite !Hll.
  rewrite (proj2 (Z.eqb_neq _ _)) by lia.
  unfold Array_findIndex.
  rewrite (bind_ret _ _ _ _ _ (bind_ret _ _ _ _ _ (run_elements _ _ _ Hl))).
  assert ((findIndex_from (fun h => negb (Merkle.isValidSHA256Hex h)) (MerkleSpec.leaves xs) 0 =? -1)
          = true) as Hidx.
  { rewrite findIndex_from_none by lia.
    rewrite forallb_double_neg. exact (leaves_all_valid xs Hxs). }
  rewrite Hidx. cbn [negb]. cbv iota.
  rewrite (proj2 (Z.eqb_neq _ _)) by lia.
  set (st1 := State (heap st ++ [OArray (MerkleSpec.leaves xs)]) (hashed st)).
  assert (Array_map call_toLowerCase l st = (Ret (length (heap st)), st1)) as Hmap.
  { unfold Array_map.
    rewrite (bind_ret _ _ _ _ _ (run_elements _ _ _ Hl)).
    rewrite (bind_ret _ _ _ _ _ (map_toLowerCase_run xs st Hxs)). reflexivity. }
  rewrite (bind_ret _ _ _ _ _ Hmap).
  assert (heap st1 !! length (heap st) = Some (OArray (map VString xs))) as Hcur.
  { simpl. rewrite lookup_app_r by lia. rewrite Nat.sub_diag. reflexivity. }
  destruct (level_loop_run fuel xs st1 _ Hcur) as (st2 & top & root & Hrun & Htop & Hred & Hpre); [lia|].
  rewrite (bind_ret _ _ _ _ _ Hrun).
  exists st2, root. split; [|split].
  - apply (run_array_get top _ st2 0%nat Htop).
  - exact Hred.
  - etransitivity; [|exact Hpre]. simpl. apply prefix_app_r. reflexivity.
Qed.

(** ** The heap only grows: no existing array is written *)

Section HeapRelation.
Variable R : list object -> list object -> Prop.
Hypothesis R_trans : forall h1 h2 h3, R h1 h2 -> R h2 h3 -> R h1 h3.

(** A relation between the heaps before and after composes over [bind]. *)
Lemma bind_related {A B} (c : M A) (k : A -> M B) st :
  R (heap st) (heap (snd (c st))) ->
  (forall a st1, c st = (Ret a, st1) -> R (heap st1) (heap (snd (k a st1)))) ->
  R (heap st) (heap (snd (bind c k st))).
Proof.
  intros Hc Hk. unfold bind.
  destruct (c st) as [[a|e|] st1] eqn:E; simpl in *; auto.
  eapply R_trans; [exact Hc|]. apply Hk. reflexivity.
Qed.
End HeapRelation.

Lemma touches_refl l h : touches l h h.
Proof. exists id. symmetry. apply list_alter_id. reflexivity. Qed.

Lemma touches_trans l h1 h2 h3 : touches l h1 h2 -> touches l h2 h3 -> touches l h1 h3.
Proof.
  intros [g ->] [g' ->]. exists (g' ∘ g). apply list_alter_alter_eq.
Qed.

Lemma hashPair_heap a b st : heap (snd (Merkle.hashPair a b st)) = heap st.
Proof. destruct a, b; reflexivity. Qed.

Lemma pair_loop_touches (fuel : nat) :
  forall nodes parent i st,
    touches parent (heap st) (heap (snd (Merkle.pair_loop fuel nodes parent i st))).
Proof.
  induction fuel as [|fuel IH]; intros nodes parent i st; [apply touches_refl|].
  simpl Merkle.pair_loop.
  apply (bind_related _ (touches_trans parent)); [apply touches_refl|].
  intros n st1 [= _ <-].
  destruct (i <? n); [|apply touches_refl].
  apply (bind_related _ (touches_trans parent)); [apply touches_refl|].
  intros a st1 [= _ <-].
  apply (bind_related _ (touches_trans parent)); [apply touches_refl|].
  intros b st1 [= _ <-].
  apply (bind_related _ (touches_trans parent)).
  { rewrite hashPair_heap. apply touches_refl. }
  intros h st1 Hh.
  apply (bind_related _ (touches_trans parent)).
  { eexists. reflexivity. }
  intros [] st2 _. apply IH.
Qed.

Lemma prefix_trans (h1 h2 h3 : list object) :
  h1 `prefix_of` h2 -> h2 `prefix_of` h3 -> h1 `prefix_of` h3.
Proof. intros. etransitivity; eauto. Qed.

Lemma touches_fresh (h h' : list object) (o : object) :
  touches (length h) (h ++ [o]) h' -> h `prefix_of` h'.
Proof.
  intros [g ->]. rewrite alter_app_r_alt by lia. apply prefix_app_r. reflexivity.
Qed.

Lemma buildNextLevel_extends (fuel : nat) (level : loc) st :
  heap st `prefix_of` heap (snd (Merkle.buildNextLevel fuel level st)).
Proof.
  unfold Merkle.buildNextLevel.
  apply (bind_related _ prefix_trans); [reflexivity|].
  intros n st1 [= _ <-].
  apply (bind_related _ prefix_trans).
  { destruct (n mod 2 =? 0); [reflexivity|]. simpl. apply prefix_app_r. reflexivity. }
  intros nodes st1 _.
  unfold bind at 1. rewrite run_array_alloc.
  set (st2 := State (heap st1 ++ [OArray []]) (hashed st1)).
  pose proof (pair_loop_touches fuel nodes (length (heap st1)) 0 st2) as Ht.
  apply touches_fresh in Ht.
  unfold bind. destruct (Merkle.pair_loop fuel nodes (length (heap st1)) 0 st2) as [[[]|e|] st3];
    exact Ht.
Qed.

Lemma level_loop_extends (fuel : nat) :
  forall level st, heap st `prefix_of` heap (snd (Merkle.level_loop fuel level st)).
Proof.
  induction fuel as [|fuel IH]; intros level st; [reflexivity|].
  simpl Merkle.level_loop.
  apply (bind_related _ prefix_trans); [reflexivity|].
  intros n st1 [= _ <-].
  destruct (1 <? n); [|reflexivity].
  apply (bind_related _ prefix_trans); [apply buildNextLevel_extends|].
  intros next st1 _. apply IH.
Qed.

Lemma map_values_heap (f : value -> M value) (es : list value) :
  (forall e st, heap (snd (f e st)) = heap st) ->
  forall st, heap (snd (map_values f es st)) = heap st.
Proof.
  intros Hf. induction es as [|e es IH]; intros st; [reflexivity|].
  simpl. unfold bind. pose proof (Hf e st) as He.
  destruct (f e st) as [[v|err|] st1]; simpl in He; auto.
  pose proof (IH st1) as Hes.
  destruct (map_values f es st1) as [[vs|err|] st2]; simpl in *; congruence.
Qed.

Lemma call_toLowerCase_heap e st : heap (snd (call_toLowerCase e st)) = heap st.
Proof. destruct e; reflexivity. Qed.

(** Whatever the argument and the outcome, the heap before a call of
    [buildMerkleRoot] is a prefix of the heap after it. *)
Lemma buildMerkleRoot_extends (fuel : nat) (hashes : value) st :
  heap st `prefix_of` heap (snd (Merkle.buildMerkleRoot fuel hashes st)).
Proof.
  unfold Merkle.buildMerkleRoot.
  apply (bind_related _ prefix_trans); [reflexivity|].
  intros isArray st1 [= _ <-].
  destruct (negb isArray); [reflexivity|].
  destruct hashes; try reflexivity.
  apply (bind_related _ prefix_trans); [reflexivity|].
  intros n st1 [= _ <-].
  destruct (n =? 0); [reflexivity|].
  apply (bind_related _ prefix_trans); [reflexivity|].
  intros idx st1 [= _ <-].
  destruct (negb (idx =? -1)); [reflexivity|].
  destruct (n =? 1); [reflexivity|].
  apply (bind_related _ prefix_trans).
  { unfold Array_map. apply (bind_related _ prefix_trans); [reflexivity|].
    intros es st1 [= _ <-].
    apply (bind_related _ prefix_trans).
    - rewrite (map_values_heap _ _ call_toLowerCase_heap). reflexivity.
    - intros vs st1 _. simpl. apply prefix_app_r. reflexivity. }
  intros cur st1 _.
  apply (bind_related _ prefix_trans); [apply level_loop_extends|].
  intros top st2 _. reflexivity.
Qed.

(** ** Digests stay digests through the reduction *)

Lemma parent_level_valid (level parent : list string) :
  MerkleSpec.parent_level level parent -> Forall MerkleSpec.valid_digest parent.
Proof.
  intros [Hlen Hp]. apply Forall_lookup_2. intros i y Hy.
  assert (i < length parent)%nat as Hi by (eapply lookup_lt_Some; eauto).
  assert (2 * i < length level)%nat as Hi2.
  { rewrite Hlen in Hi.
    pose proof (Nat.Div0.mul_div_le (length level + 1) 2). lia. }
  destruct (lookup_lt_is_Some_2 level (2 * i) Hi2) as [a Ha].
  rewrite (Hp i a Ha) in Hy. injection Hy as <-.
  apply digest_is_valid.
Qed.

Lemma reduces_valid (level : list string) (root : string) :
  MerkleSpec.reduces level root ->
  Forall MerkleSpec.valid_digest level -> MerkleSpec.valid_digest root.
Proof.
  induction 1 as [root | level parent root Hlen Hp Hred IH]; intros Hv.
  - inversion Hv; assumption.
  - apply IH. eapply parent_level_valid; eauto.
Qed.

(** ** The format check, character by character *)

Lemma is_lower_hex_spec (c : ascii) :
  Merkle.is_lower_hex c = true <-> In c (list_ascii_of_string "0123456789abcdef").
Proof.
  transitivity (existsb (Ascii.eqb c) (list_ascii_of_string "0123456789abcdef") = true).
  - assert (Merkle.is_lower_hex c
            = existsb (Ascii.eqb c) (list_ascii_of_string "0123456789abcdef")) as ->;
      [|reflexivity].
    destruct c as [[] [] [] [] [] [] [] []]; reflexivity.
  - rewrite existsb_exists. split.
    + intros (x & Hx & E). apply Ascii.eqb_eq in E. subst. exact Hx.
    + intros H. exists c. split; [exact H|apply Ascii.eqb_refl].
Qed.

Lemma isValidSHA256Hex_spec (h : value) :
  Merkle.isValidSHA256Hex h = true <-> MerkleSpec.lower_hex64 h.
Proof.
  unfold MerkleSpec.lower_hex64. split.
  - intros H. destruct (valid_is_string h H) as (s & -> & Hs).
    exists s. split; [reflexivity|].
    unfold MerkleSpec.valid_digest, Merkle.regex_hex64 in Hs.
    apply andb_prop in Hs as [Hlen Hcs]. apply Z.eqb_eq in Hlen.
    split; [lia|].
    apply Forall_forall. intros c Hc. apply is_lower_hex_spec.
    rewrite forallb_forall in Hcs. apply Hcs. apply list_elem_of_In. exact Hc.
  - intros (s & -> & Hlen & Hcs).
    unfold Merkle.isValidSHA256Hex, Merkle.regex_hex64. simpl typeof.
    rewrite Hlen. simpl. apply forallb_forall. intros c Hc.
    apply is_lower_hex_spec. rewrite Forall_forall in Hcs. apply Hcs.
    apply list_elem_of_In. exact Hc.
Qed.

(** ** merkle.js: the statements *)

Lemma three_leaves_root (a b c root : string) :
  MerkleSpec.reduces [a; b; c] root ->
  root = Hex.to_hex (SHA256.sha256
           (SHA256.sha256 (Hex.from_hex a ++ Hex.from_hex b) ++
            SHA256.sha256 (Hex.from_hex c ++ Hex.from_hex c))).
Proof.
  intros H.
  assert (MerkleSpec.reduces [a; b; c]
            (MerkleSpec.hash_raw (MerkleSpec.hash_raw a b) (MerkleSpec.hash_raw c c))) as H'.
  { eapply MerkleSpec.reduces_level; [simpl; lia|apply (next_level_parent [a; b; c])|].
    eapply MerkleSpec.reduces_level; [simpl; lia| |apply MerkleSpec.reduces_root].
    apply (next_level_parent [MerkleSpec.hash_raw a b; MerkleSpec.hash_raw c c]). }
  rewrite (reduces_unique _ _ _ H H').
  unfold MerkleSpec.hash_raw. rewrite !from_hex_to_hex. reflexivity.
Qed.

(** C1. For a valid leaf sequence of length at least 2, [buildMerkleRoot]
    returns the digest to which the leaves reduce level by level, where
    [parent[i]] is the SHA-256 of the decoded 32 raw bytes of [level[2i]]
    followed by those of [level[2i+1]], the last element of an odd level
    being paired with itself; for three leaves [a, b, c] the root is
    [H(H(a||b) || H(c||c))] over raw bytes. *)
Theorem buildMerkleRoot_levels (fuel : nat) (hashes : value) (xs : list string) st :
  array_at st hashes = Some (MerkleSpec.leaves xs) ->
  Forall MerkleSpec.valid_digest xs ->
  (2 <= length xs < fuel)%nat ->
  exists root st',
    Merkle.buildMerkleRoot fuel hashes st = (Ret (VString root), st') /\
    MerkleSpec.reduces xs root /\
    (forall a b c, xs = [a; b; c] ->
       root = Hex.to_hex (SHA256.sha256
                (SHA256.sha256 (Hex.from_hex a ++ Hex.from_hex b) ++
                 SHA256.sha256 (Hex.from_hex c ++ Hex.from_hex c)))).
Proof.
  intros Harr Hvalid Hlen.
  destruct (root_many fuel hashes xs st Harr Hvalid) as (st' & root & Hrun & Hred & _); [lia|].
  exists root, st'. split; [exact Hrun|]. split; [exact Hred|].
  intros a b c ->. apply three_leaves_root. exact Hred.
Qed.

Lemma samples_valid :
  Forall MerkleSpec.valid_digest [Samples.digest_a; Samples.digest_b; Samples.digest_c].
Proof. repeat constructor. Qed.

Lemma buildMerkleRoot_levels_witness :
  exists root st',
    Merkle.buildMerkleRoot 4 (VObject 0%nat) Samples.three_leaves = (Ret (VString root), st') /\
    MerkleSpec.reduces [Samples.digest_a; Samples.digest_b; Samples.digest_c] root /\
    (forall a b c, [Samples.digest_a; Samples.digest_b; Samples.digest_c] = [a; b; c] ->
       root = Hex.to_hex (SHA256.sha256
                (SHA256.sha256 (Hex.from_hex a ++ Hex.from_hex b) ++
                 SHA256.sha256 (Hex.from_hex c ++ Hex.from_hex c)))).
Proof.
  apply (buildMerkleRoot_levels 4 (VObject 0%nat)
           [Samples.digest_a; Samples.digest_b; Samples.digest_c] Samples.three_leaves).
  - reflexivity.
  - exact samples_valid.
  - simpl. lia.
Defined.

(** The root of the three sample leaves, as Node prints it; hashing the
    hexadecimal text of the children instead gives another digest. *)
Example three_leaves_value :
  fst (Merkle.buildMerkleRoot 4 (VObject 0%nat) Samples.three_leaves)
  = Ret (VString "b3a419030971470a7bb3b165e163a11973b3e81aa1dfb29c0769725346a76fbf").
Proof. vm_compute. reflexivity. Qed.

(** C4. For a single valid digest [d], [buildMerkleRoot([d])] returns [d]
    itself and leaves the state as it was: nothing is hashed and nothing is
    allocated. *)
Theorem buildMerkleRoot_single_leaf (fuel : nat) (hashes : value) (d : string) st :
  array_at st hashes = Some [VString d] ->
  MerkleSpec.valid_digest d ->
  Merkle.buildMerkleRoot fuel hashes st = (Ret (VString d), st) /\
  hashed (snd (Merkle.buildMerkleRoot fuel hashes st)) = hashed st.
Proof.
  intros Harr Hd. rewrite (root_single fuel hashes d st Harr Hd). split; reflexivity.
Qed.

Lemma buildMerkleRoot_single_leaf_witness :
  Merkle.buildMerkleRoot 1 (VObject 0%nat) (Samples.one_array [VString Samples.abc_lower])
    = (Ret (VString Samples.abc_lower), Samples.one_array [VString Samples.abc_lower]) /\
  hashed (snd (Merkle.buildMerkleRoot 1 (VObject 0%nat)
                 (Samples.one_array [VString Samples.abc_lower]))) = [].
Proof.
  apply (buildMerkleRoot_single_leaf 1 (VObject 0%nat) Samples.abc_lower
           (Samples.one_array [VString Samples.abc_lower])).
  - reflexivity.
  - reflexivity.
Defined.

Lemma forallb_false_elem {A} (f : A -> bool) (l : list A) :
  forallb f l = false <-> exists x, In x l /\ f x = false.
Proof.
  induction l as [|a l IH]; simpl.
  - split; [discriminate|intros (x & [] & _)].
  - rewrite andb_false_iff, IH. split.
    + intros [H|(x & Hx & Hf)]; eauto.
    + intros (x & [<-|Hx] & Hf); eauto.
Qed.

(** C5, amended. [buildMerkleRoot] throws if and only if its argument is
    not an array, is an empty array, or holds an element that is not a
    string of exactly 64 characters out of 0-9 and a-f (lower case only).
    The error is a [TypeError] or a [RangeError] and the state is the one
    before the call, so nothing was hashed; on any other input a root is
    returned. *)
Theorem buildMerkleRoot_errors (fuel : nat) (hashes : value) st :
  (MerkleSpec.leaf_count st hashes < fuel)%nat ->
  ((exists e, fst (Merkle.buildMerkleRoot fuel hashes st) = Throw e) <->
   (array_at st hashes = None \/
    array_at st hashes = Some [] \/
    exists es h, array_at st hashes = Some es /\ In h es /\ ~ MerkleSpec.lower_hex64 h)) /\
  (forall e, fst (Merkle.buildMerkleRoot fuel hashes st) = Throw e ->
     (exists m, e = TypeError m \/ e = RangeError m) /\
     snd (Merkle.buildMerkleRoot fuel hashes st) = st) /\
  ((exists es, array_at st hashes = Some es /\ es <> [] /\ Forall MerkleSpec.lower_hex64 es) ->
   exists root, fst (Merkle.buildMerkleRoot fuel hashes st) = Ret (VString root)).
Proof.
  intros Hfuel. unfold MerkleSpec.leaf_count in Hfuel.
  destruct (array_at st hashes) as [es|] eqn:Harr.
  2:{ rewrite (root_not_array fuel hashes st Harr). simpl. split; [|split].
      - split; [intros _; left; reflexivity|intros _; eauto].
      - intros e [= <-]. split; [eauto|reflexivity].
      - intros (es & [=] & _). }
  destruct es as [|e0 es'].
  { rewrite (root_empty fuel hashes st Harr). simpl. split; [|split].
    - split; [intros _; right; left; reflexivity|intros _; eauto].
    - intros e [= <-]. split; [eauto|reflexivity].
    - intros (es & [= <-] & Hne & _). congruence. }
  set (es := e0 :: es') in *.
  destruct (forallb Merkle.isValidSHA256Hex es) eqn:Hall.
  - assert (exists root st', Merkle.buildMerkleRoot fuel hashes st = (Ret (VString root), st'))
      as (root & st' & Hrun).
    { destruct (all_valid_leaves es Hall) as (xs & Hes & Hxs).
      rewrite Hes in Harr. rewrite Hes in Hfuel.
      unfold MerkleSpec.leaves in Hfuel. rewrite length_map in Hfuel.
      destruct xs as [|x [|y xs]]; [discriminate| |].
      - exists x, st. apply root_single; [exact Harr|]. inversion Hxs; assumption.
      - destruct (root_many fuel hashes _ st Harr Hxs) as (st' & root & Hrun & _).
        + simpl in *. lia.
        + eauto. }
    rewrite Hrun. simpl. split; [|split].
    + split; [intros (e & [=])|].
      intros [[=]|[[=]|(es1 & h & [= <-] & Hin & Hbad)]].
      exfalso. apply Hbad. apply isValidSHA256Hex_spec.
      rewrite forallb_forall in Hall. apply Hall. exact Hin.
    + intros e [=].
    + intros _. eauto.
  - destruct (root_invalid fuel hashes es st Harr Hall) as (i & _ & Hrun).
    rewrite Hrun. simpl. split; [|split].
    + split; [|intros _; eauto].
      intros _. right. right.
      apply forallb_false_elem in Hall as (h & Hin & Hbad).
      exists es, h. split; [reflexivity|]. split; [exact Hin|].
      intros Hv. apply isValidSHA256Hex_spec in Hv. congruence.
    + intros e [= <-]. split; [eauto|reflexivity].
    + intros (es1 & [= <-] & _ & Hv). exfalso.
      apply forallb_false_elem in Hall as (h & Hin & Hbad).
      rewrite Forall_forall in Hv.
      assert (Merkle.isValidSHA256Hex h = true) as Hh
        by (apply isValidSHA256Hex_spec, Hv, list_elem_of_In, Hin).
      congruence.
Qed.

Lemma abc_lower_is_digest : MerkleSpec.lower_hex64 (VString Samples.abc_lower).
Proof. apply isValidSHA256Hex_spec. reflexivity. Qed.

Lemma buildMerkleRoot_errors_witness :
  exists root,
    fst (Merkle.buildMerkleRoot 2 (VObject 0%nat)
           (Samples.one_array [VString Samples.abc_lower])) = Ret (VString root).
Proof.
  assert (MerkleSpec.leaf_count (Samples.one_array [VString Samples.abc_lower])
            (VObject 0%nat) < 2)%nat as Hfuel by (vm_compute; lia).
  apply (proj2 (proj2 (buildMerkleRoot_errors 2 (VObject 0%nat)
           (Samples.one_array [VString Samples.abc_lower]) Hfuel))).
  exists [VString Samples.abc_lower]. split; [reflexivity|]. split; [discriminate|].
  constructor; [exact abc_lower_is_digest|constructor].
Defined.

(** An array whose only element is a string of exactly 64 hexadecimal
    characters, all upper case: the argument is an array, it is not empty,
    every element is a string of 64 hexadecimal characters, and the call
    throws a [TypeError]. *)
Lemma buildMerkleRoot_throws_on_upper_case_digest :
  let st := Samples.one_array [VString Samples.upper_A] in
  array_at st (VObject 0%nat) = Some [VString Samples.upper_A] /\
  forallb MerkleSpec.any_case_digest [VString Samples.upper_A] = true /\
  Merkle.buildMerkleRoot 2 (VObject 0%nat) st = (Throw (TypeError (InvalidHexAt 0)), st).
Proof. vm_compute. repeat split. Qed.

(** C6, amended. Validation runs on the digests as given, before the
    lowercasing step, and accepts lower case only: every non-empty array of
    64-character strings over 0-9 and a-f is accepted, and on it the
    lowercasing step changes nothing; an array that holds a 64-character
    hexadecimal string with an upper-case letter is rejected with a
    [TypeError] and the state is left as it was. *)
Theorem buildMerkleRoot_letter_case (fuel : nat) (hashes : value) (es : list value) st :
  array_at st hashes = Some es ->
  es <> [] ->
  (length es < fuel)%nat ->
  (Forall MerkleSpec.lower_hex64 es ->
     map_values call_toLowerCase es st = (Ret es, st) /\
     exists root st', Merkle.buildMerkleRoot fuel hashes st = (Ret (VString root), st')) /\
  (forall s, In (VString s) es ->
     MerkleSpec.hex64_any_case s = true -> toLowerCase s <> s ->
     exists i, Merkle.buildMerkleRoot fuel hashes st = (Throw (TypeError (InvalidHexAt i)), st)).
Proof.
  intros Harr Hne Hfuel. split.
  - intros Hv.
    assert (forallb Merkle.isValidSHA256Hex es = true) as Hall.
    { apply forallb_forall. intros h Hh. apply isValidSHA256Hex_spec.
      rewrite Forall_forall in Hv. apply Hv, list_elem_of_In, Hh. }
    destruct (all_valid_leaves es Hall) as (xs & -> & Hxs).
    split; [apply map_toLowerCase_run; exact Hxs|].
    unfold MerkleSpec.leaves in Hfuel. rewrite length_map in Hfuel.
    destruct xs as [|x [|y xs]]; [exfalso; apply Hne; reflexivity| |].
    + exists x, st. apply root_single; [exact Harr|]. inversion Hxs; assumption.
    + destruct (root_many fuel hashes _ st Harr Hxs) as (st' & root & Hrun & _).
      * simpl in *. lia.
      * eauto.
  - intros s Hin _ Hcase.
    assert (forallb Merkle.isValidSHA256Hex es = false) as Hall.
    { apply forallb_false_elem. exists (VString s). split; [exact Hin|].
      destruct (Merkle.isValidSHA256Hex (VString s)) eqn:E; [|reflexivity].
      exfalso. apply Hcase. apply valid_digest_lower. exact E. }
    destruct (root_invalid fuel hashes es st Harr Hall) as (i & _ & Hrun). eauto.
Qed.

Lemma buildMerkleRoot_letter_case_witness :
  exists i,
    Merkle.buildMerkleRoot 2 (VObject 0%nat) (Samples.one_array [VString Samples.abc_upper])
    = (Throw (TypeError (InvalidHexAt i)), Samples.one_array [VString Samples.abc_upper]).
Proof.
  assert (length [VString Samples.abc_upper] < 2)%nat as Hfuel by (simpl; lia).
  apply (proj2 (buildMerkleRoot_letter_case 2 (VObject 0%nat) [VString Samples.abc_upper]
                  (Samples.one_array [VString Samples.abc_upper]) eq_refl
                  ltac:(discriminate) Hfuel) Samples.abc_upper).
  - left. reflexivity.
  - reflexivity.
  - discriminate.
Defined.

(** SHA-256 of "abc" written in upper case is a 64-character hexadecimal
    string whose lowercase form is accepted with itself as root, yet the
    upper-case form is rejected. *)
Lemma buildMerkleRoot_rejects_upper_case_form :
  MerkleSpec.hex64_any_case Samples.abc_upper = true /\
  toLowerCase Samples.abc_upper = Samples.abc_lower /\
  fst (Merkle.buildMerkleRoot 2 (VObject 0%nat) (Samples.one_array [VString Samples.abc_lower]))
    = Ret (VString Samples.abc_lower) /\
  fst (Merkle.buildMerkleRoot 2 (VObject 0%nat) (Samples.one_array [VString Samples.abc_upper]))
    = Throw (TypeError (InvalidHexAt 0)).
Proof. vm_compute. repeat split. Qed.

(** C7. For every non-empty valid leaf sequence, of odd or even length,
    enough fuel makes [buildMerkleRoot] return, and what it returns is a
    string of 64 hexadecimal characters: the digest left when the leaves
    have been reduced level by level down to a single one. Each call of
    [buildNextLevel] on a level of more than one digest gives a non-empty
    level that is strictly shorter, and the [while] loop ends on a level of
    length 1 that holds the digest to which its first level reduces. *)
Theorem buildMerkleRoot_terminates (fuel : nat) (hashes : value) (xs : list string) st :
  array_at st hashes = Some (MerkleSpec.leaves xs) ->
  Forall MerkleSpec.valid_digest xs ->
  (0 < length xs < fuel)%nat ->
  (exists root st',
     Merkle.buildMerkleRoot fuel hashes st = (Ret (VString root), st') /\
     MerkleSpec.lower_hex64 (VString root) /\
     MerkleSpec.reduces xs root) /\
  (forall (level : loc) (ys : list string) st1,
     heap st1 !! level = Some (OArray (MerkleSpec.leaves ys)) ->
     (1 < length ys <= fuel)%nat ->
     exists parent zs st2,
       Merkle.buildNextLevel fuel level st1 = (Ret parent, st2) /\
       heap st2 !! parent = Some (OArray (MerkleSpec.leaves zs)) /\
       (0 < length zs < length ys)%nat) /\
  (forall (level : loc) (ys : list string) st1,
     heap st1 !! level = Some (OArray (MerkleSpec.leaves ys)) ->
     (0 < length ys < fuel)%nat ->
     exists top r st2,
       Merkle.level_loop fuel level st1 = (Ret top, st2) /\
       heap st2 !! top = Some (OArray [VString r]) /\
       MerkleSpec.reduces ys r).
Proof.
  intros Harr Hvalid Hlen. split; [|split].
  - assert (exists root st',
              Merkle.buildMerkleRoot fuel hashes st = (Ret (VString root), st') /\
              MerkleSpec.reduces xs root) as (root & st' & Hrun & Hred).
    { destruct xs as [|x [|y xs]]; [simpl in Hlen; lia| |].
      - exists x, st. split; [|constructor].
        apply root_single; [exact Harr|]. inversion Hvalid; assumption.
      - destruct (root_many fuel hashes _ st Harr Hvalid) as (st' & root & Hrun & Hred & _).
        + simpl in *. lia.
        + eauto. }
    exists root, st'. split; [exact Hrun|]. split; [|exact Hred].
    apply isValidSHA256Hex_spec. exact (reduces_valid xs root Hred Hvalid).
  - intros level ys st1 Hl Hys.
    destruct (buildNextLevel_run ys fuel st1 level Hl) as (st2 & parent & Hrun & Hp & _).
    { pose proof (half_up_lt (length ys)). lia. }
    exists parent, (MerkleSpec.next_level ys), st2.
    split; [exact Hrun|]. split; [exact Hp|].
    rewrite next_level_length.
    pose proof (half_up_lt (length ys)). pose proof (half_up_pos (length ys)). lia.
  - intros level ys st1 Hl Hys.
    destruct (level_loop_run fuel ys st1 level Hl Hys) as (st2 & top & r & Hrun & Htop & Hred & _).
    exists top, r, st2. split; [exact Hrun|]. split; [exact Htop|exact Hred].
Qed.

Lemma buildMerkleRoot_terminates_witness :
  exists root st',
    Merkle.buildMerkleRoot 4 (VObject 0%nat) Samples.three_leaves = (Ret (VString root), st') /\
    MerkleSpec.lower_hex64 (VString root) /\
    MerkleSpec.reduces [Samples.digest_a; Samples.digest_b; Samples.digest_c] root.
Proof.
  apply (proj1 (buildMerkleRoot_terminates 4 (VObject 0%nat)
                  [Samples.digest_a; Samples.digest_b; Samples.digest_c]
                  Samples.three_leaves eq_refl samples_valid ltac:(simpl; lia))).
Defined.

(** C8. [buildMerkleRoot] writes to no array that exists when it is
    called: whatever the argument and the outcome, every object of the heap
    is afterwards what it was, so the caller's array holds the same digests
    in the same order; and for valid leaves the root computed from a copy
    of the array is the root computed from the array itself. *)
Theorem buildMerkleRoot_preserves_input (fuel : nat) (hashes : value) st :
  (forall l o, heap st !! l = Some o ->
     heap (snd (Merkle.buildMerkleRoot fuel hashes st)) !! l = Some o) /\
  (forall es, array_at st hashes = Some es ->
     array_at (snd (Merkle.buildMerkleRoot fuel hashes st)) hashes = Some es) /\
  (forall (xs : list string) (copy : value) st2 (fuel2 : nat),
     array_at st hashes = Some (MerkleSpec.leaves xs) ->
     array_at st2 copy = Some (MerkleSpec.leaves xs) ->
     Forall MerkleSpec.valid_digest xs ->
     (0 < length xs < fuel)%nat -> (length xs < fuel2)%nat ->
     fst (Merkle.buildMerkleRoot fuel2 copy st2) = fst (Merkle.buildMerkleRoot fuel hashes st)).
Proof.
  assert (forall l o, heap st !! l = Some o ->
            heap (snd (Merkle.buildMerkleRoot fuel hashes st)) !! l = Some o) as Hframe.
  { intros l o Hl. destruct (buildMerkleRoot_extends fuel hashes st) as [k ->].
    apply lookup_app_l_Some. exact Hl. }
  split; [exact Hframe|]. split.
  - intros es Hes. destruct (array_at_lookup _ _ _ Hes) as (l & -> & Hl).
    pose proof (Hframe l _ Hl) as Hl'. unfold array_at.
    rewrite Hl'. reflexivity.
  - intros xs copy st2 fuel2 H1 H2 Hvalid Hlen Hlen2.
    destruct xs as [|x [|y xs]]; [simpl in Hlen; lia| |].
    + assert (MerkleSpec.valid_digest x) as Hx by (inversion Hvalid; assumption).
      rewrite (root_single fuel hashes x st H1 Hx), (root_single fuel2 copy x st2 H2 Hx).
      reflexivity.
    + destruct (root_many fuel hashes _ st H1 Hvalid) as (st' & root & Hrun & Hred & _);
        [simpl in *; lia|].
      destruct (root_many fuel2 copy _ st2 H2 Hvalid) as (st2' & root2 & Hrun2 & Hred2 & _);
        [simpl in *; lia|].
      rewrite Hrun, Hrun2. simpl. rewrite (reduces_unique _ _ _ Hred2 Hred). reflexivity.
Qed.

Lemma buildMerkleRoot_preserves_input_witness :
  fst (Merkle.buildMerkleRoot 5 (VObject 1%nat)
         (State [OArray (MerkleSpec.leaves [Samples.digest_a; Samples.digest_b; Samples.digest_c]);
                 OArray (MerkleSpec.leaves [Samples.digest_a; Samples.digest_b; Samples.digest_c])]
                []))
  = fst (Merkle.buildMerkleRoot 4 (VObject 0%nat) Samples.three_leaves).
Proof.
  apply (proj2 (proj2 (buildMerkleRoot_preserves_input 4 (VObject 0%nat) Samples.three_leaves))
           [Samples.digest_a; Samples.digest_b; Samples.digest_c]).
  - reflexivity.
  - reflexivity.
  - exact samples_valid.
  - simpl. lia.
  - simpl. lia.
Defined.

(** ** generateChunkHashes.js: windows are exact whatever the stream delivers *)

Import Stream.

Lemma Buffer_slice_inside (buf : list byte) (start end_ : Z) :
  0 <= start <= Z.of_nat (length buf) -> start <= end_ ->
  Buffer_slice buf start end_
  = take (Z.to_nat (end_ - start)) (drop (Z.to_nat start) buf).
Proof.
  intros Hs He. unfold Buffer_slice, clamp_index.
  rewrite (proj2 (Z.ltb_ge start 0)) by lia.
  rewrite (proj2 (Z.ltb_ge end_ 0)) by lia.
  rewrite (Z.min_l start) by lia.
  rewrite (proj2 (Z.ltb_ge _ _)) by lia.
  destruct (Z.le_ge_cases end_ (Z.of_nat (length buf))) as [H|H].
  - rewrite Z.min_l by lia. reflexivity.
  - rewrite Z.min_r by lia.
    rewrite !take_ge; [reflexivity| |]; rewrite length_drop; lia.
Qed.

Lemma split_by_windows (size : nat) (ws : list (list byte)) (r : list byte) :
  (0 < size)%nat ->
  Forall (fun w => length w = size) ws ->
  (length r < size)%nat ->
  forall fuel, (length (concat ws ++ r) <= fuel)%nat ->
    Windows.split_by fuel size (concat ws ++ r)
    = ws ++ (if decide (r = []) then [] else [r]).
Proof.
  intros Hsize Hws Hr.
  induction Hws as [|w ws Hw Hws IH]; intros fuel Hfuel.
  - simpl concat. simpl app at 1. simpl in Hfuel.
    destruct r as [|b r].
    + destruct fuel; reflexivity.
    + destruct fuel as [|fuel]; [simpl in Hfuel; lia|].
      simpl Windows.split_by.
      assert (length (b :: r) <= size)%nat as Hle by lia.
      rewrite (take_ge (b :: r) size Hle), (drop_ge (b :: r) size Hle).
      destruct fuel; reflexivity.
  - simpl concat in *. rewrite <- app_assoc.
    rewrite !length_app in Hfuel.
    destruct fuel as [|fuel]; [lia|].
    simpl Windows.split_by.
    destruct (w ++ concat ws ++ r) as [|b rest] eqn:E.
    { apply (f_equal length) in E. rewrite length_app in E. simpl in E. lia. }
    rewrite <- E.
    rewrite take_app_length' by lia.
    rewrite drop_app_length' by lia.
    rewrite IH by (rewrite length_app; lia). reflexivity.
Qed.

Lemma windows_of_parts (size : Z) (ws : list (list byte)) (r : list byte) :
  0 < size ->
  Forall (fun w => Z.of_nat (length w) = size) ws ->
  Z.of_nat (length r) < size ->
  Windows.windows size (concat ws ++ r)
  = ws ++ (if decide (r = []) then [] else [r]).
Proof.
  intros Hsize Hws Hr. unfold Windows.windows.
  apply split_by_windows; [lia| |lia|lia].
  eapply Forall_impl; [exact Hws|]. simpl. intros w Hw. lia.
Qed.

Lemma concat_length_exact (size : Z) (ws : list (list byte)) :
  Forall (fun w => Z.of_nat (length w) = size) ws ->
  Z.of_nat (length (concat ws)) = size * Z.of_nat (length ws).
Proof.
  induction 1 as [|w ws Hw Hws IH]; simpl; [lia|].
  rewrite length_app. lia.
Qed.

(** The number of windows is the length divided by the size, rounded up. *)
Lemma windows_count (size : Z) (ws : list (list byte)) (r : list byte) :
  0 < size ->
  Forall (fun w => Z.of_nat (length w) = size) ws ->
  Z.of_nat (length r) < size ->
  Z.of_nat (length (ws ++ (if decide (r = []) then [] else [r])))
  = (Z.of_nat (length (concat ws ++ r)) + size - 1) / size.
Proof.
  intros Hsize Hws Hr.
  rewrite !length_app, Nat2Z.inj_add, (Nat2Z.inj_add (length (concat ws))).
  rewrite (concat_length_exact size ws Hws).
  destruct (decide (r = [])) as [->|Hne].
  - simpl length.
    apply (Z.div_unique_pos _ _ _ (size - 1)); lia.
  - assert (0 < Z.of_nat (length r)) by (destruct r; [congruence|simpl; lia]).
    simpl length.
    apply (Z.div_unique_pos _ _ _ (Z.of_nat (length r) - 1)); lia.
Qed.

Import GenerateChunkHashes.

Lemma data_loop_unfold (fuel : nat) (chunkSize : Z) (chunk : list byte) (offset : Z) (p : progress) :
  data_loop (S fuel) chunkSize chunk offset p =
  if offset <? Z.of_nat (length chunk) then
    let slice := Buffer_slice chunk offset (offset + (chunkSize - bytesInCurrentChunk p)) in
    data_loop fuel chunkSize chunk (offset + Z.of_nat (length slice))
      (if bytesInCurrentChunk p + Z.of_nat (length slice) =? chunkSize
       then Progress (hashes p ++ [digest_hex (update (currentHash p) slice)]) createHash 0
       else Progress (hashes p) (update (currentHash p) slice)
                     (bytesInCurrentChunk p + Z.of_nat (length slice)))
  else Some p.
Proof. reflexivity. Qed.

Lemma take_then_rest {A} (m : nat) (d : list A) :
  take m d ++ drop (length (take m d)) d = d.
Proof.
  rewrite length_take.
  destruct (Nat.le_ge_cases m (length d)) as [H|H].
  - rewrite Nat.min_l by lia. apply take_drop.
  - rewrite Nat.min_r by lia. rewrite take_ge, drop_ge by lia. apply app_nil_r.
Qed.

(** One pass of the slicing loop over what is left of a delivered buffer. *)
Lemma data_loop_tracks (chunkSize : Z) (chunk : list byte) :
  0 < chunkSize ->
  forall (fuel : nat) (offset : Z) (p : progress) (src : list byte),
    ChunkSpec.tracks chunkSize src p ->
    0 <= offset <= Z.of_nat (length chunk) ->
    Z.of_nat (length chunk) - offset < Z.of_nat fuel ->
    exists p',
      data_loop fuel chunkSize chunk offset p = Some p' /\
      ChunkSpec.tracks chunkSize (src ++ drop (Z.to_nat offset) chunk) p'.
Proof.
  intros Hsize. induction fuel as [|fuel IH]; intros offset p src Ht Hoff Hfuel; [lia|].
  rewrite data_loop_unfold.
  destruct (offset <? Z.of_nat (length chunk)) eqn:Hlt.
  2:{ apply Z.ltb_ge in Hlt. exists p. split; [reflexivity|].
      rewrite drop_ge by lia. rewrite app_nil_r. exact Ht. }
  apply Z.ltb_lt in Hlt.
  destruct Ht as (ws & Hws & Hsrc & Hh & Hb & Hroom).
  set (remaining := chunkSize - bytesInCurrentChunk p) in *.
  set (d := drop (Z.to_nat offset) chunk).
  assert (Buffer_slice chunk offset (offset + remaining) = take (Z.to_nat remaining) d) as Hslice.
  { rewrite Buffer_slice_inside by lia. unfold d. f_equal. lia. }
  cbv zeta. rewrite Hslice.
  set (slice := take (Z.to_nat remaining) d) in *.
  assert (Z.of_nat (length d) = Z.of_nat (length chunk) - offset) as Hd.
  { unfold d. rewrite length_drop. lia. }
  assert (0 < Z.of_nat (length slice) <= remaining) as Hk.
  { unfold slice. rewrite length_take. lia. }
  assert (Z.of_nat (length slice) <= Z.of_nat (length d)) as Hk2.
  { unfold slice. rewrite length_take. lia. }
  assert (slice ++ drop (Z.to_nat (offset + Z.of_nat (length slice))) chunk = d) as Hrest.
  { replace (Z.to_nat (offset + Z.of_nat (length slice)))
      with (Z.to_nat offset + length slice)%nat by lia.
    rewrite <- drop_drop. fold d. apply take_then_rest. }
  match goal with
  | |- exists p', data_loop fuel chunkSize chunk ?o ?q = Some p' /\ _ =>
      destruct (IH o q (src ++ slice)) as (p' & Hrun & Ht')
  end.
  - destruct (bytesInCurrentChunk p + Z.of_nat (length slice) =? chunkSize) eqn:Hfull.
    + apply Z.eqb_eq in Hfull.
      exists (ws ++ [absorbed (currentHash p) ++ slice]). simpl.
      split; [|split; [|split; [|split]]].
      * apply Forall_app. split; [exact Hws|].
        constructor; [|constructor]. rewrite length_app. lia.
      * rewrite concat_app. simpl. rewrite !app_nil_r, Hsrc, <- app_assoc. reflexivity.
      * rewrite map_app, Hh. reflexivity.
      * reflexivity.
      * exact Hsize.
    + apply Z.eqb_neq in Hfull.
      exists ws. simpl.
      split; [exact Hws|]. split; [|split; [exact Hh|split]].
      * rewrite Hsrc, <- app_assoc. reflexivity.
      * rewrite length_app. lia.
      * unfold remaining in Hk. lia.
  - lia.
  - lia.
  - exists p'. split; [exact Hrun|].
    rewrite <- app_assoc, Hrest in Ht'. exact Ht'.
Qed.

Lemma deliver_tracks (chunkSize : Z) (fuel : nat) (chunks : list (list byte)) :
  0 < chunkSize ->
  Forall (fun chunk => (length chunk < fuel)%nat) chunks ->
  forall (p : progress) (src : list byte),
    ChunkSpec.tracks chunkSize src p ->
    exists p',
      deliver fuel chunkSize chunks p = Some p' /\
      ChunkSpec.tracks chunkSize (src ++ concat chunks) p'.
Proof.
  intros Hsize Hfuel. induction Hfuel as [|chunk chunks Hc Hcs IH]; intros p src Ht.
  - exists p. split; [reflexivity|]. simpl. rewrite app_nil_r. exact Ht.
  - destruct (data_loop_tracks chunkSize chunk Hsize fuel 0 p src Ht) as (p1 & Hrun1 & Ht1);
      [lia|lia|].
    destruct (IH p1 _ Ht1) as (p2 & Hrun2 & Ht2).
    exists p2. split.
    + simpl. unfold on_data. rewrite Hrun1. exact Hrun2.
    + simpl concat. rewrite app_assoc. exact Ht2.
Qed.

Lemma tracks_start (chunkSize : Z) :
  0 < chunkSize -> ChunkSpec.tracks chunkSize [] (Progress [] createHash 0).
Proof.
  intros H. exists []. simpl. repeat split; auto.
Qed.

(** What the 'end' handler resolves with. *)
Lemma on_end_windows (chunkSize : Z) (src : list byte) (p : progress) :
  0 < chunkSize ->
  ChunkSpec.tracks chunkSize src p ->
  on_end p = map Windows.sha256_hex (Windows.windows chunkSize src) /\
  Z.of_nat (length (on_end p)) = (Z.of_nat (length src) + chunkSize - 1) / chunkSize.
Proof.
  intros Hsize (ws & Hws & Hsrc & Hh & Hb & Hroom).
  assert (on_end p
          = map Windows.sha256_hex
              (ws ++ (if decide (absorbed (currentHash p) = []) then []
                      else [absorbed (currentHash p)]))) as Hend.
  { unfold on_end. rewrite map_app, Hh, Hb.
    destruct (absorbed (currentHash p)) as [|b rest] eqn:E.
    - simpl. rewrite app_nil_r. reflexivity.
    - destruct (decide (b :: rest = [])) as [Hnil|_]; [discriminate|].
      simpl. unfold digest_hex, Windows.sha256_hex. rewrite E. reflexivity. }
  rewrite Hend, Hsrc. split.
  - rewrite windows_of_parts by (auto; lia). reflexivity.
  - rewrite length_map. apply windows_count; auto; lia.
Qed.

(** With a usable path and a positive integer chunk size, the promise is
    settled by the final event of the stream, and on 'end' it is resolved
    with the digests of the exact windows of the bytes delivered. *)
Lemma generateChunkHashes_run (fuel : nat) (filePath : value) (chunkSize : Z) (r : run) :
  ChunkSpec.usable_path filePath ->
  0 < chunkSize ->
  ChunkSpec.enough fuel r ->
  generateChunkHashes fuel filePath (VNumber (NInt chunkSize)) r =
  match finish r with
  | Ended => Resolved (map Windows.sha256_hex (Windows.windows chunkSize (concat (delivered r))))
  | Failed err => Rejected err
  end /\
  Z.of_nat (length (map Windows.sha256_hex (Windows.windows chunkSize (concat (delivered r)))))
  = (Z.of_nat (length (concat (delivered r))) + chunkSize - 1) / chunkSize.
Proof.
  intros (s & -> & Hs) Hsize Hfuel.
  destruct (deliver_tracks chunkSize fuel (delivered r) Hsize Hfuel _ [] (tracks_start _ Hsize))
    as (p & Hrun & Ht).
  simpl app in Ht.
  destruct (on_end_windows chunkSize _ p Hsize Ht) as [Hend Hcount].
  unfold generateChunkHashes. simpl typeof. simpl String.eqb at 1. rewrite Hs.
  simpl negb. simpl orb. cbv iota.
  simpl integer_of.
  rewrite (proj2 (Z.leb_gt _ _)) by lia. cbv iota.
  rewrite Hrun, <- Hend. split; [reflexivity|exact Hcount].
Qed.

Lemma generateChunkHashes_effective (fuel : nat) (filePath chunkSizeArg : value)
    (chunkSize : Z) (r : run) :
  ChunkSpec.effective_chunk_size chunkSizeArg = Some chunkSize ->
  0 < chunkSize /\
  generateChunkHashes fuel filePath chunkSizeArg r
  = generateChunkHashes fuel filePath (VNumber (NInt chunkSize)) r.
Proof.
  destruct chunkSizeArg as [| | |[z| | |]| |]; try discriminate; simpl.
  - intros [= <-]. split; [reflexivity|reflexivity].
  - destruct (0 <? z) eqn:E; [|discriminate]. intros [= <-].
    apply Z.ltb_lt in E. split; [exact E|reflexivity].
Qed.

(** Byte-exact windows: the digests depend on the bytes of the source
    only, not on how the stream cuts them into 'data' events. *)
Lemma generateChunkHashes_byte_exact (fuel : nat) (filePath chunkSizeArg : value)
    (chunkSize : Z) (r : run) (src : list byte) :
  ChunkSpec.usable_path filePath ->
  ChunkSpec.effective_chunk_size chunkSizeArg = Some chunkSize ->
  ChunkSpec.delivers r src ->
  finish r = Ended ->
  ChunkSpec.enough fuel r ->
  generateChunkHashes fuel filePath chunkSizeArg r
  = Resolved (map Windows.sha256_hex (Windows.windows chunkSize src)).
Proof.
  intros Hpath Hsize Hsrc Hend Hfuel.
  destruct (generateChunkHashes_effective fuel filePath _ _ r Hsize) as [Hpos ->].
  destruct (generateChunkHashes_run fuel filePath chunkSize r Hpath Hpos Hfuel) as [-> _].
  rewrite Hend, Hsrc. reflexivity.
Qed.

Lemma generateChunkHashes_same_digests (fuel : nat) (filePath chunkSizeArg : value)
    (chunkSize : Z) (r1 r2 : run) (src : list byte) :
  ChunkSpec.usable_path filePath ->
  ChunkSpec.effective_chunk_size chunkSizeArg = Some chunkSize ->
  ChunkSpec.delivers r1 src -> ChunkSpec.delivers r2 src ->
  finish r1 = Ended -> finish r2 = Ended ->
  ChunkSpec.enough fuel r1 -> ChunkSpec.enough fuel r2 ->
  generateChunkHashes fuel filePath chunkSizeArg r1
  = generateChunkHashes fuel filePath chunkSizeArg r2.
Proof.
  intros Hpath Hsize H1 H2 E1 E2 F1 F2.
  rewrite (generateChunkHashes_byte_exact fuel _ _ _ r1 src Hpath Hsize H1 E1 F1).
  rewrite (generateChunkHashes_byte_exact fuel _ _ _ r2 src Hpath Hsize H2 E2 F2).
  reflexivity.
Qed.

(** A chunk size that is not in force is refused before the stream is
    looked at. *)
Lemma generateChunkHashes_bad_chunk_size (fuel : nat) (filePath chunkSizeArg : value) (r : run) :
  ChunkSpec.effective_chunk_size chunkSizeArg = None ->
  generateChunkHashes fuel filePath chunkSizeArg r = Rejected (TypeError BadFilePath) \/
  generateChunkHashes fuel filePath chunkSizeArg r = Rejected (RangeError BadChunkSize).
Proof.
  intros Hsize. unfold generateChunkHashes.
  match goal with |- context [if ?c then _ else _] => destruct c end; [left; reflexivity|].
  right.
  destruct chunkSizeArg as [| | |[z| | |]| |]; try discriminate; try reflexivity.
  simpl in Hsize. destruct (0 <? z) eqn:E; [discriminate|].
  apply Z.ltb_ge in E. simpl. rewrite (proj2 (Z.leb_le z 0)) by lia. reflexivity.
Qed.

(** A failure of the stream rejects the promise with the stream's error. *)
Lemma generateChunkHashes_stream_error (fuel : nat) (filePath chunkSizeArg : value)
    (chunkSize : Z) (r : run) (err : error) :
  ChunkSpec.usable_path filePath ->
  ChunkSpec.effective_chunk_size chunkSizeArg = Some chunkSize ->
  finish r = Failed err ->
  ChunkSpec.enough fuel r ->
  generateChunkHashes fuel filePath chunkSizeArg r = Rejected err.
Proof.
  intros Hpath Hsize Hfail Hfuel.
  destruct (generateChunkHashes_effective fuel filePath _ _ r Hsize) as [Hpos ->].
  destruct (generateChunkHashes_run fuel filePath chunkSize r Hpath Hpos Hfuel) as [-> _].
  rewrite Hfail. reflexivity.
Qed.

(** chunkHasher.js hashes each delivered buffer as it comes. *)
Lemma chunkHasher_per_delivery (filePath chunkSize : value) (r : run) :
  ChunkHasher.generateChunkHashes filePath chunkSize r =
  match finish r with
  | Ended => Resolved (map Windows.sha256_hex (delivered r))
  | Failed err => Rejected err
  end.
Proof.
  unfold ChunkHasher.generateChunkHashes.
  assert (forall chunks acc,
            fold_left ChunkHasher.on_data chunks acc
            = acc ++ map Windows.sha256_hex chunks) as Hfold.
  { induction chunks as [|c cs IH]; intros acc; simpl.
    - rewrite app_nil_r. reflexivity.
    - rewrite IH. unfold ChunkHasher.on_data. rewrite <- app_assoc. reflexivity. }
  rewrite Hfold. reflexivity.
Qed.

(** ** The chunk hashers: the statements *)

(** C2. chunkHasher.js does not re-accumulate: over the two bytes "ab"
    with chunk size 2, the stream that delivers them in one buffer gives
    the digest of the window "ab", while the stream that delivers them one
    byte at a time gives two digests, those of "a" and of "b";
    generateChunkHashes.js gives the digest of the window on both. *)
Theorem chunkHasher_follows_delivery :
  map Windows.sha256_hex (Windows.windows 2 ChunkSpec.ab)
    = ["fb8e20fc2e4c3f248c60c39bd652f3c1347298bb977b8b4d5903b85055620603"%string] /\
  ChunkHasher.generateChunkHashes ChunkSpec.some_path (VNumber (NInt 2))
      (Run [[x61; x62]] Ended)
    = Resolved ["fb8e20fc2e4c3f248c60c39bd652f3c1347298bb977b8b4d5903b85055620603"%string] /\
  ChunkHasher.generateChunkHashes ChunkSpec.some_path (VNumber (NInt 2))
      (Run [[x61]; [x62]] Ended)
    = Resolved ["ca978112ca1bbdcafac231b39a23dc4da786eff8147c4e72b9807785afee48bb"%string;
                "3e23e8160039594a33894f6564e1b1348bbd7a0088d42c4acb73eeaed59c009d"%string] /\
  GenerateChunkHashes.generateChunkHashes 3 ChunkSpec.some_path (VNumber (NInt 2))
      (Run [[x61; x62]] Ended)
    = Resolved ["fb8e20fc2e4c3f248c60c39bd652f3c1347298bb977b8b4d5903b85055620603"%string] /\
  GenerateChunkHashes.generateChunkHashes 3 ChunkSpec.some_path (VNumber (NInt 2))
      (Run [[x61]; [x62]] Ended)
    = Resolved ["fb8e20fc2e4c3f248c60c39bd652f3c1347298bb977b8b4d5903b85055620603"%string].
Proof. vm_compute. repeat split. Qed.

Lemma exact_multiple_count (len size k : Z) :
  0 < size -> len mod size = 0 ->
  k = (len + size - 1) / size -> k = len / size.
Proof.
  intros Hsize Hmod ->.
  pose proof (Z.div_mod len size ltac:(lia)) as Hdm. rewrite Hmod in Hdm.
  symmetry. apply (Z.div_unique_pos _ _ _ (size - 1)); lia.
Qed.

(** C3. With generateChunkHashes.js, for every byte source and every
    positive chunk size the promise resolves with exactly
    ceil(len(source) / chunkSize) digests: none for an empty source, and
    len / chunkSize of them when the length is a multiple of the size. *)
Theorem generateChunkHashes_count (fuel : nat) (filePath chunkSizeArg : value)
    (chunkSize : Z) (r : run) (src : list byte) :
  ChunkSpec.usable_path filePath ->
  ChunkSpec.effective_chunk_size chunkSizeArg = Some chunkSize ->
  ChunkSpec.delivers r src ->
  finish r = Ended ->
  ChunkSpec.enough fuel r ->
  exists digests : list string,
    generateChunkHashes fuel filePath chunkSizeArg r = Resolved digests /\
    Z.of_nat (length digests) = (Z.of_nat (length src) + chunkSize - 1) / chunkSize /\
    (src = [] -> digests = []) /\
    (Z.of_nat (length src) mod chunkSize = 0 ->
     Z.of_nat (length digests) = Z.of_nat (length src) / chunkSize).
Proof.
  intros Hpath Hsize Hsrc Hend Hfuel.
  destruct (generateChunkHashes_effective fuel filePath _ _ r Hsize) as [Hpos Harg].
  destruct (generateChunkHashes_run fuel filePath chunkSize r Hpath Hpos Hfuel) as [Hrun Hcount].
  rewrite Hend in Hrun. unfold ChunkSpec.delivers in Hsrc. rewrite Hsrc in Hrun, Hcount.
  exists (map Windows.sha256_hex (Windows.windows chunkSize src)).
  split; [rewrite Harg; exact Hrun|]. split; [exact Hcount|]. split.
  - intros ->. reflexivity.
  - intros Hmod. eapply exact_multiple_count; eauto.
Qed.

Lemma some_path_usable : ChunkSpec.usable_path ChunkSpec.some_path.
Proof. eexists. split; reflexivity. Qed.

Lemma generateChunkHashes_count_witness :
  exists digests : list string,
    generateChunkHashes 3 ChunkSpec.some_path (VNumber (NInt 1)) (Run [[x61]; [x62]] Ended)
      = Resolved digests /\
    Z.of_nat (length digests) = (Z.of_nat (length ChunkSpec.ab) + 1 - 1) / 1 /\
    (ChunkSpec.ab = [] -> digests = []) /\
    (Z.of_nat (length ChunkSpec.ab) mod 1 = 0 ->
     Z.of_nat (length digests) = Z.of_nat (length ChunkSpec.ab) / 1).
Proof.
  apply (generateChunkHashes_count 3 ChunkSpec.some_path (VNumber (NInt 1)) 1
           (Run [[x61]; [x62]] Ended) ChunkSpec.ab).
  - exact some_path_usable.
  - reflexivity.
  - reflexivity.
  - reflexivity.
  - unfold ChunkSpec.enough. simpl. repeat constructor.
Defined.

(** C9. chunkHasher.js does not check its chunk size: called with the
    chunk size 0 on a stream that ends, it resolves with a (here empty)
    list of digests, where generateChunkHashes.js rejects with a
    [RangeError]; an error of the stream rejects both promises with that
    error. *)
Theorem chunkHasher_accepts_zero_chunk_size :
  ChunkSpec.effective_chunk_size (VNumber (NInt 0)) = None /\
  ChunkHasher.generateChunkHashes ChunkSpec.some_path (VNumber (NInt 0)) (Run [] Ended)
    = Resolved [] /\
  GenerateChunkHashes.generateChunkHashes 1 ChunkSpec.some_path (VNumber (NInt 0)) (Run [] Ended)
    = Rejected (RangeError BadChunkSize) /\
  (forall chunks err,
     ChunkHasher.generateChunkHashes ChunkSpec.some_path (VNumber (NInt 0))
       (Run chunks (Failed err)) = Rejected err).
Proof.
  split; [reflexivity|]. split; [reflexivity|]. split; [reflexivity|].
  intros chunks err. rewrite chunkHasher_per_delivery. reflexivity.
Qed.

Lemma fold_update_absorbs (chunks : list (list byte)) :
  forall h, absorbed (fold_left update chunks h) = absorbed h ++ concat chunks.
Proof.
  induction chunks as [|c cs IH]; intros h; simpl.
  - rewrite app_nil_r. reflexivity.
  - rewrite IH. simpl. rewrite <- app_assoc. reflexivity.
Qed.

Lemma single_window (chunkSize : Z) (src : list byte) :
  src <> [] -> Z.of_nat (length src) <= chunkSize ->
  Windows.windows chunkSize src = [src].
Proof.
  intros Hne Hlen.
  assert (0 < Z.of_nat (length src)) as Hpos by (destruct src; [congruence|simpl; lia]).
  destruct (Z.eq_dec (Z.of_nat (length src)) chunkSize) as [Heq|Hlt].
  - pose proof (windows_of_parts chunkSize [src] []) as H.
    simpl in H. rewrite !app_nil_r in H. apply H; [lia| |lia].
    constructor; [exact Heq|constructor].
  - pose proof (windows_of_parts chunkSize [] src) as H.
    simpl in H. rewrite H; [|lia|constructor|lia].
    destruct (decide (src = [])); [congruence|reflexivity].
Qed.

(** C10. For a non-empty source no longer than the chunk size,
    generateChunkHashes.js resolves with one digest, and it is the digest
    with which [generateFileHash] resolves over the same bytes, however the
    two streams deliver them. *)
Theorem single_chunk_is_file_hash (fuel : nat) (filePath chunkSizeArg : value)
    (chunkSize : Z) (r1 r2 : run) (src : list byte) :
  ChunkSpec.usable_path filePath ->
  ChunkSpec.effective_chunk_size chunkSizeArg = Some chunkSize ->
  src <> [] ->
  Z.of_nat (length src) <= chunkSize ->
  ChunkSpec.delivers r1 src -> finish r1 = Ended -> ChunkSpec.enough fuel r1 ->
  ChunkSpec.delivers r2 src -> finish r2 = Ended ->
  exists digest : string,
    generateChunkHashes fuel filePath chunkSizeArg r1 = Resolved [digest] /\
    Hasher.generateFileHash filePath r2 = Resolved digest.
Proof.
  intros Hpath Hsize Hne Hlen H1 E1 F1 H2 E2.
  exists (Windows.sha256_hex src). split.
  - rewrite (generateChunkHashes_byte_exact fuel _ _ _ r1 src Hpath Hsize H1 E1 F1).
    rewrite (single_window chunkSize src Hne Hlen). reflexivity.
  - unfold Hasher.generateFileHash. rewrite E2.
    unfold digest_hex. rewrite fold_update_absorbs.
    unfold ChunkSpec.delivers in H2. rewrite H2. reflexivity.
Qed.

Lemma single_chunk_is_file_hash_witness :
  exists digest : string,
    generateChunkHashes 3 ChunkSpec.some_path VUndefined (Run [[x61]; [x62]] Ended)
      = Resolved [digest] /\
    Hasher.generateFileHash ChunkSpec.some_path (Run [[x61; x62]] Ended) = Resolved digest.
Proof.
  apply (single_chunk_is_file_hash 3 ChunkSpec.some_path VUndefined
           GenerateChunkHashes.DEFAULT_CHUNK_SIZE
           (Run [[x61]; [x62]] Ended) (Run [[x61; x62]] Ended) ChunkSpec.ab).
  - exact some_path_usable.
  - reflexivity.
  - discriminate.
  - vm_compute. discriminate.
  - reflexivity.
  - reflexivity.
  - unfold ChunkSpec.enough. simpl. repeat constructor.
  - reflexivity.
  - reflexivity.
Defined.

(** * Further properties of merkle.js *)

Lemma root_of_valid (fuel : nat) (v : value) (xs : list string) st :
  array_at st v = Some (MerkleSpec.leaves xs) ->
  Forall MerkleSpec.valid_digest xs ->
  (0 < length xs < fuel)%nat ->
  exists root st',
    Merkle.buildMerkleRoot fuel v st = (Ret (VString root), st') /\
    MerkleSpec.reduces xs root.
Proof.
  intros Harr Hvalid Hlen.
  destruct xs as [|x [|y xs]]; [simpl in Hlen; lia| |].
  - exists x, st. split; [|constructor].
    apply root_single; [exact Harr|]. inversion Hvalid; assumption.
  - destruct (root_many fuel v _ st Harr Hvalid) as (st' & root & Hrun & Hred & _).
    + simpl in *. lia.
    + eauto.
Qed.

Lemma findIndex_from_first (p : value -> bool) (es : list value) :
  forall i k, 0 <= i ->
    findIndex_from p es i = i + Z.of_nat k ->
    (exists e, es !! k = Some e /\ p e = true) /\
    (forall j e, (j < k)%nat -> es !! j = Some e -> p e = false).
Proof.
  induction es as [|e0 es IH]; intros i k Hi Hk; simpl in Hk; [lia|].
  destruct (p e0) eqn:E.
  - assert (k = 0%nat) as -> by lia. split; [exists e0; auto|]. intros j e Hj. lia.
  - destruct k as [|k].
    + destruct (findIndex_from_range p es (i + 1)) as [H|H]; lia.
    + destruct (IH (i + 1) k) as [Hat Hbefore]; [lia|lia|].
      split; [exact Hat|].
      intros [|j] e Hj Hl; [simpl in Hl; congruence|].
      apply (Hbefore j e); [lia|exact Hl].
Qed.

Lemma root_invalid_at (fuel : nat) (v : value) (es : list value) st :
  array_at st v = Some es ->
  forallb Merkle.isValidSHA256Hex es = false ->
  exists i, 0 <= i < Z.of_nat (length es) /\
    i = findIndex_from (fun h => negb (Merkle.isValidSHA256Hex h)) es 0 /\
    Merkle.buildMerkleRoot fuel v st = (Throw (TypeError (InvalidHexAt i)), st).
Proof.
  intros H Hbad. destruct (array_at_lookup _ _ _ H) as (l & -> & Hl).
  set (p := fun h => negb (Merkle.isValidSHA256Hex h)).
  assert ((findIndex_from p es 0 =? -1) = false) as Hidx.
  { rewrite findIndex_from_none by lia.
    unfold p. rewrite forallb_double_neg. exact Hbad. }
  exists (findIndex_from p es 0). split.
  { destruct (findIndex_from_range p es 0) as [E|E]; [lia| |lia].
    rewrite E in Hidx. discriminate. }
  split; [reflexivity|].
  enter_array H.
  rewrite (bind_ret _ _ _ _ _ (run_array_length _ _ _ Hl)).
  destruct es as [|e es]; [discriminate|].
  change (Z.of_nat (length (e :: es)) =? 0) with false. cbv iota.
  unfold Array_findIndex.
  rewrite (bind_ret _ _ _ _ _ (bind_ret _ _ _ _ _ (run_elements _ _ _ Hl))).
  fold p. rewrite Hidx. reflexivity.
Qed.

(** X1. When a non-empty array holds an element that fails the format
    check, the [TypeError] names the index of the first such element:
    every element before it passes the check and the one at it does not. *)
Theorem buildMerkleRoot_reports_first_invalid (fuel : nat) (hashes : value)
    (es : list value) st :
  array_at st hashes = Some es ->
  forallb Merkle.isValidSHA256Hex es = false ->
  exists k : nat,
    Merkle.buildMerkleRoot fuel hashes st
      = (Throw (TypeError (InvalidHexAt (Z.of_nat k))), st) /\
    (exists e, es !! k = Some e /\ Merkle.isValidSHA256Hex e = false) /\
    (forall j e, (j < k)%nat -> es !! j = Some e -> Merkle.isValidSHA256Hex e = true).
Proof.
  intros Harr Hbad.
  destruct (root_invalid_at fuel hashes es st Harr Hbad) as (i & Hi & Hidx & Hrun).
  exists (Z.to_nat i). rewrite Z2Nat.id by lia. split; [exact Hrun|].
  destruct (findIndex_from_first (fun h => negb (Merkle.isValidSHA256Hex h)) es 0 (Z.to_nat i))
    as [(e & He & Hp) Hbefore]; [lia|lia|].
  split.
  - exists e. split; [exact He|]. apply negb_true_iff. exact Hp.
  - intros j e' Hj Hl'. apply negb_false_iff. exact (Hbefore j e' Hj Hl').
Qed.

Lemma buildMerkleRoot_reports_first_invalid_witness :
  exists k : nat,
    Merkle.buildMerkleRoot 3 (VObject 0%nat)
        (Samples.one_array [VString Samples.abc_lower; VString Samples.abc_upper; VNull])
      = (Throw (TypeError (InvalidHexAt (Z.of_nat k))),
         Samples.one_array [VString Samples.abc_lower; VString Samples.abc_upper; VNull]) /\
    (exists e, [VString Samples.abc_lower; VString Samples.abc_upper; VNull] !! k = Some e /\
               Merkle.isValidSHA256Hex e = false) /\
    (forall j e, (j < k)%nat ->
       [VString Samples.abc_lower; VString Samples.abc_upper; VNull] !! j = Some e ->
       Merkle.isValidSHA256Hex e = true).
Proof.
  apply (buildMerkleRoot_reports_first_invalid 3 (VObject 0%nat)
           [VString Samples.abc_lower; VString Samples.abc_upper; VNull]).
  - reflexivity.
  - reflexivity.
Defined.

(** X2. The class of the error tells the cause: the call throws a
    [RangeError] exactly when the argument is an empty array, and a
    [TypeError] that carries [typeof] of the argument exactly when the
    argument is not an array. *)
Theorem buildMerkleRoot_error_classes (fuel : nat) (hashes : value) st :
  (MerkleSpec.leaf_count st hashes < fuel)%nat ->
  ((exists m, fst (Merkle.buildMerkleRoot fuel hashes st) = Throw (RangeError m))
     <-> array_at st hashes = Some []) /\
  ((exists got, fst (Merkle.buildMerkleRoot fuel hashes st)
                = Throw (TypeError (ExpectedArray got)))
     <-> array_at st hashes = None) /\
  (array_at st hashes = None ->
   fst (Merkle.buildMerkleRoot fuel hashes st)
   = Throw (TypeError (ExpectedArray (typeof hashes)))).
Proof.
  intros Hfuel. unfold MerkleSpec.leaf_count in Hfuel.
  destruct (array_at st hashes) as [es|] eqn:Harr.
  2:{ rewrite (root_not_array fuel hashes st Harr). simpl.
      repeat split; try discriminate; eauto. intros (m & [=]). }
  destruct es as [|e0 es'].
  { rewrite (root_empty fuel hashes st Harr). simpl.
    repeat split; try discriminate; eauto. intros (m & [=]). }
  destruct (forallb Merkle.isValidSHA256Hex (e0 :: es')) eqn:Hall.
  - destruct (all_valid_leaves _ Hall) as (xs & Hes & Hxs).
    rewrite Hes in Harr. rewrite Hes in Hfuel.
    unfold MerkleSpec.leaves in Hfuel. rewrite length_map in Hfuel.
    destruct (root_of_valid fuel hashes xs st Harr Hxs) as (root & st' & Hrun & _).
    { destruct xs; [discriminate|simpl in *; lia]. }
    rewrite Hrun. simpl. repeat split; try discriminate.
    + intros (m & [=]).
    + intros (m & [=]).
  - destruct (root_invalid fuel hashes _ st Harr Hall) as (i & _ & Hrun).
    rewrite Hrun. simpl. repeat split; try discriminate.
    + intros (m & [=]).
    + intros (m & [=]).
Qed.

Lemma buildMerkleRoot_error_classes_witness :
  fst (Merkle.buildMerkleRoot 1 (VString "not an array") (Samples.one_array []))
  = Throw (TypeError (ExpectedArray "string")).
Proof.
  assert (MerkleSpec.leaf_count (Samples.one_array []) (VString "not an array") < 1)%nat
    as Hfuel by (vm_compute; lia).
  apply (proj2 (proj2 (buildMerkleRoot_error_classes 1 (VString "not an array")
                         (Samples.one_array []) Hfuel))).
  reflexivity.
Defined.

Lemma odd_tail (a b : string) (l : list string) :
  Z.of_nat (length (a :: b :: l)) mod 2 = Z.of_nat (length l) mod 2.
Proof.
  simpl length.
  replace (Z.of_nat (S (S (length l)))) with (Z.of_nat (length l) + 1 * 2) by lia.
  apply Z.mod_add. lia.
Qed.

Lemma pairs_of_duplicated_last (xs : list string) (x : string) :
  Z.of_nat (length xs) mod 2 <> 0 ->
  last xs = Some x ->
  MerkleSpec.pairs_of (xs ++ [x]) = MerkleSpec.pairs_of xs.
Proof.
  induction xs as [| a | a b l IH] using pairs_ind; intros Hodd Hlast.
  - discriminate.
  - injection Hlast as <-. reflexivity.
  - rewrite odd_tail in Hodd.
    destruct l as [|c l]; [exfalso; apply Hodd; reflexivity|].
    simpl. f_equal. apply IH; [exact Hodd|exact Hlast].
Qed.

Lemma reduces_step (xs : list string) (root : string) :
  (1 < length xs)%nat ->
  MerkleSpec.reduces xs root ->
  MerkleSpec.reduces (MerkleSpec.next_level xs) root.
Proof.
  intros Hlen H. inversion H as [|? parent ? _ Hp Hred]; subst.
  - simpl in Hlen. lia.
  - rewrite (parent_level_unique _ _ _ (next_level_parent xs) Hp). exact Hred.
Qed.

(** X3. A level of odd length is reduced exactly as the level with its
    last digest written twice: for valid leaves of odd length at least 3,
    [buildMerkleRoot] returns the same root for [xs] and for [xs] followed
    by a copy of its last element. *)
Theorem buildMerkleRoot_duplicated_last (fuel : nat) (hashes longer : value)
    (xs : list string) (x : string) st st2 :
  array_at st hashes = Some (MerkleSpec.leaves xs) ->
  array_at st2 longer = Some (MerkleSpec.leaves (xs ++ [x])) ->
  Forall MerkleSpec.valid_digest xs ->
  last xs = Some x ->
  Z.of_nat (length xs) mod 2 <> 0 ->
  (1 < length xs)%nat ->
  (length xs + 1 < fuel)%nat ->
  exists root,
    fst (Merkle.buildMerkleRoot fuel hashes st) = Ret (VString root) /\
    fst (Merkle.buildMerkleRoot fuel longer st2) = Ret (VString root).
Proof.
  intros H1 H2 Hvalid Hlast Hodd Hlen Hfuel.
  assert (MerkleSpec.valid_digest x) as Hx.
  { rewrite Forall_forall in Hvalid. apply Hvalid.
    apply last_Some in Hlast as [l' ->]. apply elem_of_app. right. constructor. }
  destruct (root_of_valid fuel hashes xs st H1 Hvalid) as (r1 & st' & Hrun1 & Hred1); [lia|].
  destruct (root_of_valid fuel longer (xs ++ [x]) st2 H2) as (r2 & st2' & Hrun2 & Hred2).
  { apply Forall_app. split; [exact Hvalid|constructor; [exact Hx|constructor]]. }
  { rewrite length_app. simpl. lia. }
  exists r1. rewrite Hrun1, Hrun2. split; [reflexivity|]. simpl. f_equal. f_equal.
  apply (reduces_unique (xs ++ [x])); [exact Hred2|].
  eapply MerkleSpec.reduces_level.
  - rewrite length_app. simpl. lia.
  - apply next_level_parent.
  - unfold MerkleSpec.next_level. rewrite (pairs_of_duplicated_last xs x Hodd Hlast).
    apply reduces_step; assumption.
Qed.

Lemma buildMerkleRoot_duplicated_last_witness :
  exists root,
    fst (Merkle.buildMerkleRoot 5 (VObject 0%nat) Samples.three_leaves) = Ret (VString root) /\
    fst (Merkle.buildMerkleRoot 5 (VObject 0%nat)
           (Samples.one_array
              (MerkleSpec.leaves ([Samples.digest_a; Samples.digest_b; Samples.digest_c]
                                  ++ [Samples.digest_c]))))
    = Ret (VString root).
Proof.
  apply (buildMerkleRoot_duplicated_last 5 (VObject 0%nat) (VObject 0%nat)
           [Samples.digest_a; Samples.digest_b; Samples.digest_c] Samples.digest_c).
  - reflexivity.
  - reflexivity.
  - exact samples_valid.
  - reflexivity.
  - vm_compute. discriminate.
  - simpl. lia.
  - simpl. lia.
Defined.

Lemma pairs_of_app_even (xs ys : list string) :
  Z.of_nat (length xs) mod 2 = 0 ->
  MerkleSpec.pairs_of (xs ++ ys) = MerkleSpec.pairs_of xs ++ MerkleSpec.pairs_of ys.
Proof.
  induction xs as [| a | a b l IH] using pairs_ind; intros Heven.
  - reflexivity.
  - discriminate.
  - rewrite odd_tail in Heven. simpl. f_equal. apply IH. exact Heven.
Qed.

Lemma next_level_app_even (xs ys : list string) :
  Z.of_nat (length xs) mod 2 = 0 ->
  MerkleSpec.next_level (xs ++ ys) = MerkleSpec.next_level xs ++ MerkleSpec.next_level ys.
Proof.
  intros H. unfold MerkleSpec.next_level.
  rewrite (pairs_of_app_even xs ys H). apply map_app.
Qed.

Lemma reduces_balanced (k : nat) :
  forall (xs ys : list string) (rx ry : string),
    length xs = (2 ^ k)%nat -> length ys = (2 ^ k)%nat ->
    MerkleSpec.reduces xs rx -> MerkleSpec.reduces ys ry ->
    MerkleSpec.reduces (xs ++ ys) (MerkleSpec.hash_raw rx ry).
Proof.
  induction k as [|k IH]; intros xs ys rx ry Lx Ly Hx Hy.
  - destruct xs as [|a [|? ?]]; try discriminate.
    destruct ys as [|b [|? ?]]; try discriminate.
    inversion Hx as [|? ? ? Hl]; subst; [|simpl in Hl; lia].
    inversion Hy as [|? ? ? Hl]; subst; [|simpl in Hl; lia].
    eapply MerkleSpec.reduces_level; [simpl; lia|apply (next_level_parent [rx; ry])|].
    apply MerkleSpec.reduces_root.
  - assert (2 ^ S k = 2 * 2 ^ k)%nat as Hpow by (simpl; lia).
    assert (0 < 2 ^ k)%nat as Hpos by (apply Nat.neq_0_lt_0, Nat.pow_nonzero; lia).
    assert (Z.of_nat (length xs) mod 2 = 0) as Heven.
    { rewrite Lx, Hpow, Nat2Z.inj_mul, Z.mul_comm. apply Z.mod_mul. lia. }
    assert (forall n, n = (2 ^ S k)%nat -> ((n + 1) / 2 = 2 ^ k)%nat) as Hhalf.
    { intros n ->. rewrite Hpow. symmetry.
      apply (Nat.div_unique _ _ _ 1); lia. }
    eapply MerkleSpec.reduces_level.
    + rewrite length_app. lia.
    + apply next_level_parent.
    + rewrite (next_level_app_even xs ys Heven).
      apply IH.
      * rewrite next_level_length. apply Hhalf. exact Lx.
      * rewrite next_level_length. apply Hhalf. exact Ly.
      * apply reduces_step; [lia|exact Hx].
      * apply reduces_step; [lia|exact Hy].
Qed.

(** X4. Two subtrees of the same power-of-two size combine: for valid
    leaf sequences [xs] and [ys] of [2^k] digests each, the root of
    [xs ++ ys] is the digest of the raw bytes of the root of [xs] followed
    by those of the root of [ys]. *)
Theorem buildMerkleRoot_of_halves (fuel k : nat) (left_ right_ both : value)
    (xs ys : list string) stl str st :
  array_at stl left_ = Some (MerkleSpec.leaves xs) ->
  array_at str right_ = Some (MerkleSpec.leaves ys) ->
  array_at st both = Some (MerkleSpec.leaves (xs ++ ys)) ->
  Forall MerkleSpec.valid_digest xs ->
  Forall MerkleSpec.valid_digest ys ->
  length xs = (2 ^ k)%nat -> length ys = (2 ^ k)%nat ->
  (2 * 2 ^ k < fuel)%nat ->
  exists rx ry,
    fst (Merkle.buildMerkleRoot fuel left_ stl) = Ret (VString rx) /\
    fst (Merkle.buildMerkleRoot fuel right_ str) = Ret (VString ry) /\
    fst (Merkle.buildMerkleRoot fuel both st)
    = Ret (VString (Hex.to_hex (SHA256.sha256 (Hex.from_hex rx ++ Hex.from_hex ry)))).
Proof.
  intros Hl Hr Hb Vx Vy Lx Ly Hfuel.
  assert (0 < 2 ^ k)%nat as Hpos by (apply Nat.neq_0_lt_0, Nat.pow_nonzero; lia).
  destruct (root_of_valid fuel left_ xs stl Hl Vx) as (rx & sl & Hrx & Hredx); [lia|].
  destruct (root_of_valid fuel right_ ys str Hr Vy) as (ry & sr & Hry & Hredy); [lia|].
  destruct (root_of_valid fuel both (xs ++ ys) st Hb) as (r & sb & Hrb & Hredb).
  { apply Forall_app. split; assumption. }
  { rewrite length_app. lia. }
  exists rx, ry. rewrite Hrx, Hry, Hrb. repeat split. simpl. f_equal. f_equal.
  exact (reduces_unique _ _ _ Hredb (reduces_balanced k xs ys rx ry Lx Ly Hredx Hredy)).
Qed.

Lemma buildMerkleRoot_of_halves_witness :
  exists rx ry,
    fst (Merkle.buildMerkleRoot 5 (VObject 0%nat)
           (Samples.one_array (MerkleSpec.leaves [Samples.digest_a; Samples.digest_b])))
      = Ret (VString rx) /\
    fst (Merkle.buildMerkleRoot 5 (VObject 0%nat)
           (Samples.one_array (MerkleSpec.leaves [Samples.digest_c; Samples.abc_lower])))
      = Ret (VString ry) /\
    fst (Merkle.buildMerkleRoot 5 (VObject 0%nat)
           (Samples.one_array
              (MerkleSpec.leaves ([Samples.digest_a; Samples.digest_b]
                                  ++ [Samples.digest_c; Samples.abc_lower]))))
    = Ret (VString (Hex.to_hex (SHA256.sha256 (Hex.from_hex rx ++ Hex.from_hex ry)))).
Proof.
  apply (buildMerkleRoot_of_halves 5 1 (VObject 0%nat) (VObject 0%nat) (VObject 0%nat)
           [Samples.digest_a; Samples.digest_b] [Samples.digest_c; Samples.abc_lower]).
  - reflexivity.
  - reflexivity.
  - reflexivity.
  - repeat constructor.
  - repeat constructor.
  - reflexivity.
  - reflexivity.
  - simpl. lia.
Defined.

(** ** The messages hashed by a reduction *)

Lemma pair_loop_log (ps : list (string * string)) :
  forall (seen : list string) (acc : list value) (fuel : nat) st (nodes parent : loc),
    nodes <> parent ->
    heap st !! nodes = Some (OArray (map VString (seen ++ MerkleSpec.flatten ps))) ->
    heap st !! parent = Some (OArray acc) ->
    (length ps < fuel)%nat ->
    Merkle.pair_loop fuel nodes parent (Z.of_nat (length seen)) st
    = (Ret tt,
       State (<[parent := OArray (acc ++ map (fun p => VString (MerkleSpec.hash_raw (fst p) (snd p))) ps)]>
                (heap st))
             (hashed st ++ map MerkleCost.message ps)).
Proof.
  induction ps as [|[a b] ps IH]; intros seen acc fuel st nodes parent Hne Hn Hp Hfuel;
    (destruct fuel as [|fuel]; [simpl in Hfuel; lia|]).
  - simpl Merkle.pair_loop.
    change (MerkleSpec.flatten []) with (@nil string) in *.
    rewrite (bind_ret _ _ _ _ _ (run_array_length _ _ _ Hn)).
    rewrite length_map, length_app. cbn [length].
    rewrite (proj2 (Z.ltb_ge _ _)) by lia.
    simpl. rewrite !app_nil_r, list_insert_id by auto. destruct st; reflexivity.
  - simpl Merkle.pair_loop. rewrite flatten_cons in Hn.
    rewrite (bind_ret _ _ _ _ _ (run_array_length _ _ _ Hn)).
    rewrite length_map, length_app. cbn [length].
    rewrite (proj2 (Z.ltb_lt _ _)) by lia.
    rewrite (bind_ret _ _ _ _ _ (run_array_get _ _ _ _ Hn)).
    replace (Z.of_nat (length seen) + 1) with (Z.of_nat (S (length seen))) by lia.
    rewrite (bind_ret _ _ _ _ _ (run_array_get _ _ _ _ Hn)).
    rewrite !list_lookup_fmap.
    rewrite lookup_app_r by lia. rewrite Nat.sub_diag.
    rewrite lookup_app_r by lia.
    replace (S (length seen) - length seen)%nat with 1%nat by lia.
    simpl default.
    set (st1 := State (heap st) (hashed st ++ [MerkleCost.message (a, b)])).
    assert (Merkle.hashPair (VString a) (VString b) st
            = (Ret (VString (MerkleSpec.hash_raw a b)), st1)) as Hrun1 by reflexivity.
    rewrite (bind_ret _ _ _ _ _ Hrun1).
    set (st2 := State (<[parent := OArray (acc ++ [VString (MerkleSpec.hash_raw a b)])]> (heap st))
                      (hashed st1)).
    assert (array_push parent (VString (MerkleSpec.hash_raw a b)) st1 = (Ret tt, st2)) as Hrun2.
    { unfold array_push, st2. simpl heap.
      rewrite (alter_as_insert _ _ _ _ Hp). reflexivity. }
    rewrite (bind_ret _ _ _ _ _ Hrun2).
    assert (heap st2 !! nodes = Some (OArray (map VString ((seen ++ [a; b]) ++ MerkleSpec.flatten ps)))) as Hn2.
    { simpl. rewrite list_lookup_insert_ne by auto. rewrite <- app_assoc. exact Hn. }
    assert (heap st2 !! parent = Some (OArray (acc ++ [VString (MerkleSpec.hash_raw a b)]))) as Hp2.
    { simpl. apply list_lookup_insert_eq. eapply lookup_lt_Some; eauto. }
    pose proof (IH (seen ++ [a; b]) _ fuel st2 nodes parent Hne Hn2 Hp2) as Hrun3.
    rewrite length_app in Hrun3. simpl length in Hrun3.
    replace (Z.of_nat (length seen) + 2) with (Z.of_nat (length seen + 2)) by lia.
    rewrite Hrun3 by (simpl in Hfuel; lia).
    simpl. rewrite list_insert_insert_eq, <- !app_assoc. reflexivity.
Qed.

Lemma buildNextLevel_log (xs : list string) (fuel : nat) st (level : loc) :
  heap st !! level = Some (OArray (map VString xs)) ->
  ((length xs + 1) / 2 < fuel)%nat ->
  exists st' parent,
    Merkle.buildNextLevel fuel level st = (Ret parent, st') /\
    heap st' !! parent = Some (OArray (map VString (MerkleSpec.next_level xs))) /\
    hashed st' = hashed st ++ map MerkleCost.message (MerkleSpec.pairs_of xs).
Proof.
  intros Hl Hfuel.
  assert (length (MerkleSpec.pairs_of xs) < fuel)%nat as Hps
    by (rewrite pairs_of_length; exact Hfuel).
  assert (map (fun p => VString (MerkleSpec.hash_raw (fst p) (snd p))) (MerkleSpec.pairs_of xs)
          = map VString (MerkleSpec.next_level xs)) as Hmap.
  { unfold MerkleSpec.next_level. rewrite map_map. reflexivity. }
  assert (forall st1 nodes,
            heap st1 !! nodes
              = Some (OArray (map VString (MerkleSpec.flatten (MerkleSpec.pairs_of xs)))) ->
            exists st',
              (let! parent := array_alloc [] in
               let! _ := Merkle.pair_loop fuel nodes parent 0 in
               ret parent) st1 = (Ret (length (heap st1)), st') /\
              heap st' !! length (heap st1)
                = Some (OArray (map VString (MerkleSpec.next_level xs))) /\
              hashed st' = hashed st1 ++ map MerkleCost.message (MerkleSpec.pairs_of xs))
    as Htail.
  { intros st1 nodes Hn.
    assert (nodes < length (heap st1))%nat as Hlt by (eapply lookup_lt_Some; eauto).
    rewrite (bind_ret _ _ _ _ _ (run_array_alloc _ _)).
    set (st2 := State (heap st1 ++ [OArray []]) (hashed st1)).
    pose proof (pair_loop_log (MerkleSpec.pairs_of xs) [] [] fuel st2 nodes (length (heap st1)))
      as Hrun.
    change (Z.of_nat (length [])) with 0 in Hrun.
    rewrite (bind_ret _ _ _ _ _ (Hrun ltac:(lia)
               ltac:(simpl; rewrite lookup_app_l by lia; exact Hn)
               ltac:(simpl; rewrite lookup_app_r by lia; rewrite Nat.sub_diag; reflexivity)
               Hps)).
    eexists. split; [reflexivity|]. simpl. split; [|reflexivity].
    rewrite insert_app_r_alt by lia. rewrite Nat.sub_diag. simpl.
    rewrite lookup_app_r by lia. rewrite Nat.sub_diag, Hmap. reflexivity. }
  unfold Merkle.buildNextLevel.
  rewrite (bind_ret _ _ _ _ _ (run_array_length _ _ _ Hl)).
  rewrite length_map.
  destruct (Z.of_nat (length xs) mod 2 =? 0) eqn:Heven.
  - apply Z.eqb_eq in Heven.
    rewrite (bind_ret _ _ st level st eq_refl).
    rewrite <- (flatten_pairs_even xs Heven) in Hl.
    destruct (Htail st level Hl) as (st' & Hrun & Hp & Hlog). eauto.
  - apply Z.eqb_neq in Heven.
    set (st1 := State (heap st ++ [OArray (map VString (MerkleSpec.flatten (MerkleSpec.pairs_of xs)))])
                      (hashed st)).
    assert ((let! es := elements level in
             let! last := array_get level (Z.of_nat (length xs) - 1) in
             array_alloc (es ++ [last])) st = (Ret (length (heap st)), st1)) as Hnodes.
    { rewrite (bind_ret _ _ _ _ _ (run_elements _ _ _ Hl)).
      assert (length xs <> 0)%nat as Hpos.
      { intros E. rewrite E in Heven. apply Heven. reflexivity. }
      replace (Z.of_nat (length xs) - 1) with (Z.of_nat (length xs - 1)) by lia.
      rewrite (bind_ret _ _ _ _ _ (run_array_get _ _ _ _ Hl)).
      rewrite run_array_alloc. unfold st1.
      rewrite (flatten_pairs_odd xs Heven). reflexivity. }
    rewrite (bind_ret _ _ _ _ _ Hnodes).
    destruct (Htail st1 (length (heap st))) as (st' & Hrun & Hp & Hlog).
    { simpl. rewrite lookup_app_r by lia. rewrite Nat.sub_diag. reflexivity. }
    eauto.
Qed.

Lemma level_loop_log (fuel : nat) :
  forall (xs : list string) st (level : loc),
    heap st !! level = Some (OArray (map VString xs)) ->
    (0 < length xs < fuel)%nat ->
    exists st' top,
      Merkle.level_loop fuel level st = (Ret top, st') /\
      hashed st' = hashed st ++ MerkleCost.messages fuel xs.
Proof.
  induction fuel as [|fuel IH]; intros xs st level Hl Hlen; [lia|].
  simpl Merkle.level_loop. simpl MerkleCost.messages.
  rewrite (bind_ret _ _ _ _ _ (run_array_length _ _ _ Hl)).
  rewrite length_map.
  destruct (1 <? Z.of_nat (length xs)) eqn:Hmore.
  - apply Z.ltb_lt in Hmore.
    rewrite (proj2 (Nat.ltb_lt 1 (length xs))) by lia.
    destruct (buildNextLevel_log xs fuel st level Hl) as (st1 & parent & Hrun & Hp & Hlog).
    { pose proof (half_up_lt (length xs)). lia. }
    rewrite (bind_ret _ _ _ _ _ Hrun).
    destruct (IH (MerkleSpec.next_level xs) st1 parent Hp) as (st2 & top & Hrun2 & Hlog2).
    { rewrite next_level_length.
      pose proof (half_up_lt (length xs)). pose proof (half_up_pos (length xs)). lia. }
    exists st2, top. split; [exact Hrun2|].
    rewrite Hlog2, Hlog, <- app_assoc. reflexivity.
  - apply Z.ltb_ge in Hmore.
    rewrite (proj2 (Nat.ltb_ge 1 (length xs))) by lia.
    exists st, level. split; [reflexivity|]. rewrite app_nil_r. reflexivity.
Qed.

Lemma messages_count (fuel : nat) :
  forall xs, length (MerkleCost.messages fuel xs) = MerkleCost.calls fuel (length xs).
Proof.
  induction fuel as [|fuel IH]; intros xs; [reflexivity|].
  simpl. destruct (1 <? length xs)%nat; [|reflexivity].
  rewrite length_app, length_map, pairs_of_length, IH, next_level_length. reflexivity.
Qed.

Lemma half_up_bounds (n : nat) : (n <= 2 * ((n + 1) / 2) <= n + 1)%nat.
Proof.
  pose proof (Nat.Div0.mul_div_le (n + 1) 2).
  pose proof (Nat.mul_succ_div_gt (n + 1) 2 ltac:(lia)). lia.
Qed.

Lemma calls_unfold (fuel n : nat) :
  MerkleCost.calls (S fuel) n
  = if (1 <? n)%nat then ((n + 1) / 2 + MerkleCost.calls fuel ((n + 1) / 2))%nat else 0%nat.
Proof. reflexivity. Qed.

Lemma calls_bounds (fuel : nat) :
  forall n, (1 < n < fuel)%nat ->
    (n - 1 <= MerkleCost.calls fuel n <= 2 * n - 2)%nat.
Proof.
  induction fuel as [|fuel IH]; intros n Hn; [lia|].
  rewrite calls_unfold, (proj2 (Nat.ltb_lt 1 n)) by lia.
  pose proof (half_up_bounds n) as Hc.
  destruct (Nat.le_gt_cases ((n + 1) / 2) 1) as [Hone|Hmany].
  - assert (MerkleCost.calls fuel ((n + 1) / 2) = 0)%nat as ->.
    { destruct fuel; [reflexivity|].
      rewrite calls_unfold, (proj2 (Nat.ltb_ge 1 _)) by lia. reflexivity. }
    lia.
  - specialize (IH ((n + 1) / 2)%nat ltac:(lia)). lia.
Qed.

Lemma calls_power_of_two (k : nat) :
  forall fuel, (2 ^ k < fuel)%nat -> MerkleCost.calls fuel (2 ^ k) = (2 ^ k - 1)%nat.
Proof.
  induction k as [|k IH]; intros fuel Hfuel.
  - destruct fuel; [simpl in Hfuel; lia|]. reflexivity.
  - assert (2 ^ S k = 2 * 2 ^ k)%nat as Hpow by (simpl; lia).
    assert (0 < 2 ^ k)%nat as Hpos by (apply Nat.neq_0_lt_0, Nat.pow_nonzero; lia).
    destruct fuel as [|fuel]; [lia|].
    rewrite calls_unfold, (proj2 (Nat.ltb_lt 1 (2 ^ S k))) by lia.
    assert ((2 ^ S k + 1) / 2 = 2 ^ k)%nat as ->.
    { rewrite Hpow. symmetry. apply (Nat.div_unique _ _ _ 1); lia. }
    rewrite IH by lia. lia.
Qed.

Lemma two_step_ind {A} (P : list A -> Prop) :
  P [] -> (forall a, P [a]) -> (forall a b l, P l -> P (a :: b :: l)) ->
  forall l, P l.
Proof.
  intros H0 H1 H2.
  assert (forall l, P l /\ forall a, P (a :: l)) as H.
  { induction l as [|b l [IH1 IH2]]; split; auto. }
  intros l. apply H.
Qed.

Lemma decode_length (cs : list ascii) :
  forallb Merkle.is_lower_hex cs = true ->
  (2 * length (Hex.decode cs) + length cs mod 2 = length cs)%nat.
Proof.
  induction cs as [| a | a b l IH] using two_step_ind.
  - reflexivity.
  - reflexivity.
  - intros H. simpl in H.
    apply andb_prop in H as [Ha H]. apply andb_prop in H as [Hb Hl].
    assert (forall c, Merkle.is_lower_hex c = true -> exists v, Hex.hex_value c = Some v) as Hv.
    { intros c Hc. unfold Hex.hex_value. unfold Merkle.is_lower_hex in Hc.
      destruct ((48 <=? N_of_ascii c)%N && (N_of_ascii c <=? 57)%N); [eauto|].
      simpl in Hc. rewrite Hc. eauto. }
    destruct (Hv a Ha) as [va Ea]. destruct (Hv b Hb) as [vb Eb].
    simpl Hex.decode. rewrite Ea, Eb. specialize (IH Hl). simpl length.
    replace (S (S (length l))) with (length l + 1 * 2)%nat by lia.
    rewrite Nat.Div0.mod_add. lia.
Qed.

Lemma from_hex_digest_length (s : string) :
  MerkleSpec.valid_digest s -> length (Hex.from_hex s) = 32%nat.
Proof.
  unfold MerkleSpec.valid_digest, Merkle.regex_hex64. intros H.
  apply andb_prop in H as [Hlen Hcs]. apply Z.eqb_eq in Hlen.
  pose proof (decode_length _ Hcs) as Hd. unfold Hex.from_hex.
  assert (length (list_ascii_of_string s) = 64%nat) as Hl.
  { rewrite <- (string_length_of_list (list_ascii_of_string s)),
            string_of_list_ascii_of_string. lia. }
  rewrite Hl in Hd. change (64 mod 2)%nat with 0%nat in Hd. lia.
Qed.

Lemma pairs_of_valid (xs : list string) :
  Forall MerkleSpec.valid_digest xs ->
  Forall (fun p => MerkleSpec.valid_digest (fst p) /\ MerkleSpec.valid_digest (snd p))
         (MerkleSpec.pairs_of xs).
Proof.
  induction xs as [| a | a b l IH] using pairs_ind; intros H.
  - constructor.
  - inversion H; subst. constructor; [split; assumption|constructor].
  - inversion H as [|? ? Ha H']; subst. inversion H' as [|? ? Hb H'']; subst.
    simpl. constructor; [split; assumption|]. apply IH. exact H''.
Qed.

Lemma messages_sizes (fuel : nat) :
  forall xs, Forall MerkleSpec.valid_digest xs ->
    Forall (fun m => length m = 64%nat) (MerkleCost.messages fuel xs).
Proof.
  induction fuel as [|fuel IH]; intros xs Hxs; [constructor|].
  simpl. destruct (1 <? length xs)%nat; [|constructor].
  apply Forall_app. split.
  - apply Forall_fmap. eapply Forall_impl; [apply pairs_of_valid; exact Hxs|].
    intros [a b] [Ha Hb]. simpl. unfold MerkleCost.message. simpl.
    rewrite length_app, !from_hex_digest_length by assumption. reflexivity.
  - apply IH. eapply parent_level_valid. apply next_level_parent.
Qed.

(** X5. Reducing [n >= 2] valid leaves gives SHA-256 one message per pair
    and level, each of exactly 64 bytes (two decoded digests): between
    [n - 1] and [2n - 2] messages in all, and exactly [n - 1] when [n] is a
    power of two. *)
Theorem buildMerkleRoot_hash_calls (fuel : nat) (hashes : value) (xs : list string) st :
  array_at st hashes = Some (MerkleSpec.leaves xs) ->
  Forall MerkleSpec.valid_digest xs ->
  (1 < length xs < fuel)%nat ->
  exists log : list (list byte),
    hashed (snd (Merkle.buildMerkleRoot fuel hashes st)) = hashed st ++ log /\
    Forall (fun m => length m = 64%nat) log /\
    (length xs - 1 <= length log <= 2 * length xs - 2)%nat /\
    (forall k, length xs = (2 ^ k)%nat -> length log = (2 ^ k - 1)%nat).
Proof.
  intros Harr Hvalid Hlen. destruct (array_at_lookup _ _ _ Harr) as (l & -> & Hl).
  exists (MerkleCost.messages fuel xs).
  split; [|split; [apply messages_sizes; exact Hvalid|]].
  - enter_array Harr.
    rewrite (bind_ret _ _ _ _ _ (run_array_length _ _ _ Hl)).
    assert (length (MerkleSpec.leaves xs) = length xs) as Hll by apply length_map.
    rewrite !Hll.
    rewrite (proj2 (Z.eqb_neq _ _)) by lia.
    unfold Array_findIndex.
    rewrite (bind_ret _ _ _ _ _ (bind_ret _ _ _ _ _ (run_elements _ _ _ Hl))).
    assert ((findIndex_from (fun h => negb (Merkle.isValidSHA256Hex h)) (MerkleSpec.leaves xs) 0 =? -1)
            = true) as Hidx.
    { rewrite findIndex_from_none by lia.
      rewrite forallb_double_neg. exact (leaves_all_valid xs Hvalid). }
    rewrite Hidx. cbn [negb]. cbv iota.
    rewrite (proj2 (Z.eqb_neq _ _)) by lia.
    set (st1 := State (heap st ++ [OArray (MerkleSpec.leaves xs)]) (hashed st)).
    assert (Array_map call_toLowerCase l st = (Ret (length (heap st)), st1)) as Hmap.
    { unfold Array_map.
      rewrite (bind_ret _ _ _ _ _ (run_elements _ _ _ Hl)).
      rewrite (bind_ret _ _ _ _ _ (map_toLowerCase_run xs st Hvalid)). reflexivity. }
    rewrite (bind_ret _ _ _ _ _ Hmap).
    assert (heap st1 !! length (heap st) = Some (OArray (map VString xs))) as Hcur.
    { simpl. rewrite lookup_app_r by lia. rewrite Nat.sub_diag. reflexivity. }
    destruct (level_loop_log fuel xs st1 _ Hcur) as (st2 & top & Hrun & Hlog); [lia|].
    rewrite (bind_ret _ _ _ _ _ Hrun). exact Hlog.
  - rewrite messages_count. split; [apply calls_bounds; lia|].
    intros k Hk. rewrite Hk. apply calls_power_of_two. lia.
Qed.

Lemma buildMerkleRoot_hash_calls_witness :
  exists log : list (list byte),
    hashed (snd (Merkle.buildMerkleRoot 4 (VObject 0%nat) Samples.three_leaves))
      = hashed Samples.three_leaves ++ log /\
    Forall (fun m => length m = 64%nat) log /\
    (3 - 1 <= length log <= 2 * 3 - 2)%nat /\
    (forall k, 3%nat = (2 ^ k)%nat -> length log = (2 ^ k - 1)%nat).
Proof.
  apply (buildMerkleRoot_hash_calls 4 (VObject 0%nat)
           [Samples.digest_a; Samples.digest_b; Samples.digest_c] Samples.three_leaves).
  - reflexivity.
  - exact samples_valid.
  - simpl. lia.
Defined.

Lemma hex_value_lower_char (c : ascii) :
  Hex.hex_value (lower_char c) = Hex.hex_value c.
Proof. destruct c as [[] [] [] [] [] [] [] []]; reflexivity. Qed.

Lemma decode_lower (cs : list ascii) :
  Hex.decode (map lower_char cs) = Hex.decode cs.
Proof.
  induction cs as [| a | a b l IH] using two_step_ind; [reflexivity..|].
  simpl. rewrite !hex_value_lower_char, IH. reflexivity.
Qed.

Lemma from_hex_toLowerCase (s : string) :
  Hex.from_hex (toLowerCase s) = Hex.from_hex s.
Proof.
  unfold Hex.from_hex, toLowerCase.
  rewrite list_ascii_of_string_of_list_ascii. apply decode_lower.
Qed.

(** X6. [hashPair] decodes its arguments without regard to letter case
    and always answers two strings with a well-formed digest, so lowercasing
    the arguments first never changes the parent hash; an argument that is
    [undefined], [null], a boolean or a number makes it throw a [TypeError]
    before anything is hashed. *)
Theorem hashPair_ignores_letter_case (a b : string) st :
  fst (Merkle.hashPair (VString (toLowerCase a)) (VString (toLowerCase b)) st)
    = fst (Merkle.hashPair (VString a) (VString b) st) /\
  (exists d, fst (Merkle.hashPair (VString a) (VString b) st) = Ret (VString d) /\
             MerkleSpec.lower_hex64 (VString d)) /\
  (forall v,
     v = VUndefined \/ v = VNull \/ (exists t, v = VBool t) \/ (exists n, v = VNumber n) ->
     Merkle.hashPair v (VString b) st = (Throw (TypeError NotAString), st) /\
     Merkle.hashPair (VString a) v st = (Throw (TypeError NotAString), st)).
Proof.
  split; [|split].
  - unfold Merkle.hashPair, bind, Buffer_from_hex, ret, JS.sha256_hex. simpl.
    rewrite !from_hex_toLowerCase. reflexivity.
  - eexists. split; [reflexivity|]. apply isValidSHA256Hex_spec, digest_is_valid.
  - intros v [->|[->|[[t ->]|[n ->]]]]; split; reflexivity.
Qed.

Lemma hashPair_ignores_letter_case_witness :
  Merkle.hashPair VUndefined (VString Samples.digest_b) Samples.three_leaves
    = (Throw (TypeError NotAString), Samples.three_leaves) /\
  Merkle.hashPair (VString Samples.digest_a) VUndefined Samples.three_leaves
    = (Throw (TypeError NotAString), Samples.three_leaves).
Proof.
  apply (proj2 (proj2 (hashPair_ignores_letter_case Samples.digest_a Samples.digest_b
                         Samples.three_leaves)) VUndefined).
  left. reflexivity.
Defined.

(** * Further properties of the chunk hashers *)

(** Every byte string is a run of full windows followed by a shorter rest. *)
Lemma windows_decompose (size : Z) (src : list byte) :
  0 < size ->
  exists ws r,
    src = concat ws ++ r /\
    Forall (fun w => Z.of_nat (length w) = size) ws /\
    Z.of_nat (length r) < size.
Proof.
  intros Hsize.
  destruct (data_loop_tracks size src Hsize (S (length src)) 0 _ []
              (tracks_start size Hsize)) as (p & _ & ws & Hws & Hsrc & _ & Hb & Hroom);
    [lia|lia|].
  simpl in Hsrc. exists ws, (absorbed (currentHash p)).
  split; [exact Hsrc|]. split; [exact Hws|lia].
Qed.

Lemma windows_concat (size : Z) (src : list byte) :
  0 < size -> concat (Windows.windows size src) = src.
Proof.
  intros Hsize. destruct (windows_decompose size src Hsize) as (ws & r & -> & Hws & Hr).
  rewrite (windows_of_parts size ws r Hsize Hws Hr), concat_app.
  destruct (decide (r = [])) as [->|_]; simpl; rewrite ?app_nil_r; reflexivity.
Qed.

Lemma windows_sizes (size : Z) (src : list byte) :
  0 < size ->
  Forall (fun w => 0 < Z.of_nat (length w) <= size) (Windows.windows size src).
Proof.
  intros Hsize. destruct (windows_decompose size src Hsize) as (ws & r & -> & Hws & Hr).
  rewrite (windows_of_parts size ws r Hsize Hws Hr). apply Forall_app. split.
  - eapply Forall_impl; [exact Hws|]. simpl. intros w Hw. lia.
  - destruct (decide (r = [])) as [->|Hne]; [constructor|].
    constructor; [|constructor]. destruct r; [congruence|simpl in *; lia].
Qed.

Lemma split_by_lookup (size : nat) :
  (0 < size)%nat ->
  forall (i fuel : nat) (src : list byte),
    (i * size < length src <= fuel)%nat ->
    Windows.split_by fuel size src !! i = Some (take size (drop (i * size) src)).
Proof.
  intros Hsize. induction i as [|i IH]; intros fuel src Hlen.
  - destruct fuel as [|fuel]; [lia|]. destruct src as [|b src]; [simpl in Hlen; lia|].
    reflexivity.
  - destruct fuel as [|fuel]; [lia|]. destruct src as [|b src]; [simpl in Hlen; lia|].
    change (Windows.split_by (S fuel) size (b :: src) !! S i)
      with (Windows.split_by fuel size (drop size (b :: src)) !! i).
    rewrite IH.
    + rewrite drop_drop. do 2 f_equal; simpl; lia.
    + rewrite length_drop. simpl in *. nia.
Qed.

Lemma windows_lookup (size : Z) (src : list byte) (i : Z) :
  0 < size -> 0 <= i -> i * size < Z.of_nat (length src) ->
  Windows.windows size src !! Z.to_nat i
  = Some (Buffer_slice src (i * size) ((i + 1) * size)).
Proof.
  intros Hsize Hi Hlen. unfold Windows.windows.
  assert (Z.to_nat i * Z.to_nat size = Z.to_nat (i * size))%nat as Hmul
    by (rewrite Z2Nat.inj_mul; lia).
  assert (0 <= i * size) as Hnonneg by (apply Z.mul_nonneg_nonneg; lia).
  rewrite split_by_lookup by (rewrite ?Hmul; lia).
  rewrite Buffer_slice_inside by lia.
  rewrite Hmul. do 2 f_equal. lia.
Qed.

Lemma windows_app (size : Z) (a b : list byte) :
  0 < size -> Z.of_nat (length a) mod size = 0 ->
  Windows.windows size (a ++ b) = Windows.windows size a ++ Windows.windows size b.
Proof.
  intros Hsize Hmod.
  destruct (windows_decompose size a Hsize) as (wa & ra & -> & Hwa & Hra).
  destruct (windows_decompose size b Hsize) as (wb & rb & -> & Hwb & Hrb).
  assert (ra = []) as ->.
  { rewrite length_app, Nat2Z.inj_add, (concat_length_exact size wa Hwa) in Hmod.
    rewrite Z.add_comm, Z.mul_comm, Z.mod_add, Z.mod_small in Hmod by lia.
    destruct ra; [reflexivity|simpl in Hmod; lia]. }
  rewrite app_nil_r.
  replace (concat wa ++ concat wb ++ rb) with (concat (wa ++ wb) ++ rb)
    by (rewrite concat_app, app_assoc; reflexivity).
  rewrite (windows_of_parts size (wa ++ wb) rb Hsize) by (try apply Forall_app; auto).
  rewrite (windows_of_parts size wb rb Hsize Hwb Hrb).
  pose proof (windows_of_parts size wa [] Hsize Hwa ltac:(simpl; lia)) as Ha.
  rewrite app_nil_r in Ha. rewrite Ha. simpl. rewrite app_nil_r, app_assoc. reflexivity.
Qed.

(** X7. generateChunkHashes.js is byte-exact: for a usable path and a
    chunk size in force, every stream that delivers the bytes [src] and
    then ends resolves the promise with the SHA-256 digests of the windows
    of [src]; the windows put together are [src], none is empty or longer
    than the chunk size, and two streams that cut the same bytes
    differently give the same digests. *)
Theorem generateChunkHashes_windows_any_delivery (fuel : nat)
    (filePath chunkSizeArg : value) (chunkSize : Z) (r1 r2 : run) (src : list byte) :
  ChunkSpec.usable_path filePath ->
  ChunkSpec.effective_chunk_size chunkSizeArg = Some chunkSize ->
  ChunkSpec.delivers r1 src -> finish r1 = Ended -> ChunkSpec.enough fuel r1 ->
  ChunkSpec.delivers r2 src -> finish r2 = Ended -> ChunkSpec.enough fuel r2 ->
  exists ws : list (list byte),
    generateChunkHashes fuel filePath chunkSizeArg r1 = Resolved (map Windows.sha256_hex ws) /\
    generateChunkHashes fuel filePath chunkSizeArg r2 = Resolved (map Windows.sha256_hex ws) /\
    concat ws = src /\
    Forall (fun w => 0 < Z.of_nat (length w) <= chunkSize) ws /\
    (forall i w, ws !! i = Some w -> (S i < length ws)%nat -> Z.of_nat (length w) = chunkSize).
Proof.
  intros Hpath Hsize H1 E1 F1 H2 E2 F2.
  destruct (generateChunkHashes_effective fuel filePath _ _ r1 Hsize) as [Hpos _].
  exists (Windows.windows chunkSize src).
  split; [exact (generateChunkHashes_byte_exact fuel _ _ _ r1 src Hpath Hsize H1 E1 F1)|].
  split; [exact (generateChunkHashes_byte_exact fuel _ _ _ r2 src Hpath Hsize H2 E2 F2)|].
  split; [apply windows_concat; exact Hpos|].
  split; [apply windows_sizes; exact Hpos|].
  destruct (windows_decompose chunkSize src Hpos) as (ws & r & -> & Hws & Hr).
  rewrite (windows_of_parts chunkSize ws r Hpos Hws Hr).
  intros i w Hi Hnext.
  assert (i < length ws)%nat as Hin.
  { rewrite length_app in Hnext. destruct (decide (r = [])); simpl in Hnext; lia. }
  rewrite lookup_app_l in Hi by exact Hin.
  rewrite Forall_lookup in Hws. exact (Hws i w Hi).
Qed.

Lemma generateChunkHashes_windows_any_delivery_witness :
  exists ws : list (list byte),
    generateChunkHashes 3 ChunkSpec.some_path (VNumber (NInt 1)) (Run [[x61; x62]] Ended)
      = Resolved (map Windows.sha256_hex ws) /\
    generateChunkHashes 3 ChunkSpec.some_path (VNumber (NInt 1)) (Run [[x61]; []; [x62]] Ended)
      = Resolved (map Windows.sha256_hex ws) /\
    concat ws = ChunkSpec.ab /\
    Forall (fun w => 0 < Z.of_nat (length w) <= 1) ws /\
    (forall i w, ws !! i = Some w -> (S i < length ws)%nat -> Z.of_nat (length w) = 1).
Proof.
  apply (generateChunkHashes_windows_any_delivery 3 ChunkSpec.some_path (VNumber (NInt 1)) 1
           (Run [[x61; x62]] Ended) (Run [[x61]; []; [x62]] Ended) ChunkSpec.ab).
  - exact some_path_usable.
  - reflexivity.
  - reflexivity.
  - reflexivity.
  - unfold ChunkSpec.enough. simpl. repeat constructor.
  - reflexivity.
  - reflexivity.
  - unfold ChunkSpec.enough. simpl. repeat constructor.
Defined.

(** X8. The digest at index [i] is the SHA-256 of
    [src.slice(i * chunkSize, (i + 1) * chunkSize)], for every [i] whose
    window starts inside the source. *)
Theorem generateChunkHashes_digest_of_slice (fuel : nat) (filePath chunkSizeArg : value)
    (chunkSize : Z) (r : run) (src : list byte) (i : Z) :
  ChunkSpec.usable_path filePath ->
  ChunkSpec.effective_chunk_size chunkSizeArg = Some chunkSize ->
  ChunkSpec.delivers r src -> finish r = Ended -> ChunkSpec.enough fuel r ->
  0 <= i -> i * chunkSize < Z.of_nat (length src) ->
  exists digests : list string,
    generateChunkHashes fuel filePath chunkSizeArg r = Resolved digests /\
    digests !! Z.to_nat i
    = Some (Windows.sha256_hex (Buffer_slice src (i * chunkSize) ((i + 1) * chunkSize))).
Proof.
  intros Hpath Hsize Hsrc Hend Hfuel Hi Hlen.
  destruct (generateChunkHashes_effective fuel filePath _ _ r Hsize) as [Hpos _].
  eexists. split; [exact (generateChunkHashes_byte_exact fuel _ _ _ r src Hpath Hsize Hsrc Hend Hfuel)|].
  rewrite list_lookup_fmap, (windows_lookup chunkSize src i Hpos Hi Hlen). reflexivity.
Qed.

Lemma generateChunkHashes_digest_of_slice_witness :
  exists digests : list string,
    generateChunkHashes 3 ChunkSpec.some_path (VNumber (NInt 1)) (Run [[x61; x62]] Ended)
      = Resolved digests /\
    digests !! Z.to_nat 1
    = Some (Windows.sha256_hex (Buffer_slice ChunkSpec.ab (1 * 1) ((1 + 1) * 1))).
Proof.
  apply (generateChunkHashes_digest_of_slice 3 ChunkSpec.some_path (VNumber (NInt 1)) 1
           (Run [[x61; x62]] Ended) ChunkSpec.ab 1).
  - exact some_path_usable.
  - reflexivity.
  - reflexivity.
  - reflexivity.
  - unfold ChunkSpec.enough. simpl. repeat constructor.
  - lia.
  - simpl. lia.
Defined.

(** X9. Appending to a source whose length is a multiple of the chunk size
    keeps its digests: the digests of [a ++ b] are those of [a] followed by
    those of [b]. *)
Theorem generateChunkHashes_append (fuel : nat) (filePath chunkSizeArg : value)
    (chunkSize : Z) (ra rb rab : run) (a b : list byte) :
  ChunkSpec.usable_path filePath ->
  ChunkSpec.effective_chunk_size chunkSizeArg = Some chunkSize ->
  Z.of_nat (length a) mod chunkSize = 0 ->
  ChunkSpec.delivers ra a -> finish ra = Ended -> ChunkSpec.enough fuel ra ->
  ChunkSpec.delivers rb b -> finish rb = Ended -> ChunkSpec.enough fuel rb ->
  ChunkSpec.delivers rab (a ++ b) -> finish rab = Ended -> ChunkSpec.enough fuel rab ->
  exists da db,
    generateChunkHashes fuel filePath chunkSizeArg ra = Resolved da /\
    generateChunkHashes fuel filePath chunkSizeArg rb = Resolved db /\
    generateChunkHashes fuel filePath chunkSizeArg rab = Resolved (da ++ db).
Proof.
  intros Hpath Hsize Hmod Ha Ea Fa Hb Eb Fb Hab Eab Fab.
  destruct (generateChunkHashes_effective fuel filePath _ _ ra Hsize) as [Hpos _].
  exists (map Windows.sha256_hex (Windows.windows chunkSize a)),
         (map Windows.sha256_hex (Windows.windows chunkSize b)).
  split; [exact (generateChunkHashes_byte_exact fuel _ _ _ ra a Hpath Hsize Ha Ea Fa)|].
  split; [exact (generateChunkHashes_byte_exact fuel _ _ _ rb b Hpath Hsize Hb Eb Fb)|].
  rewrite (generateChunkHashes_byte_exact fuel _ _ _ rab (a ++ b) Hpath Hsize Hab Eab Fab).
  rewrite (windows_app chunkSize a b Hpos Hmod), map_app. reflexivity.
Qed.

Lemma generateChunkHashes_append_witness :
  exists da db,
    generateChunkHashes 3 ChunkSpec.some_path (VNumber (NInt 2)) (Run [[x61; x62]] Ended)
      = Resolved da /\
    generateChunkHashes 3 ChunkSpec.some_path (VNumber (NInt 2)) (Run [[x63]] Ended)
      = Resolved db /\
    generateChunkHashes 3 ChunkSpec.some_path (VNumber (NInt 2)) (Run [[x61]; [x62; x63]] Ended)
      = Resolved (da ++ db).
Proof.
  apply (generateChunkHashes_append 3 ChunkSpec.some_path (VNumber (NInt 2)) 2
           (Run [[x61; x62]] Ended) (Run [[x63]] Ended) (Run [[x61]; [x62; x63]] Ended)
           ChunkSpec.ab [x63]).
  - exact some_path_usable.
  - reflexivity.
  - reflexivity.
  - reflexivity.
  - reflexivity.
  - unfold ChunkSpec.enough. simpl. repeat constructor.
  - reflexivity.
  - reflexivity.
  - unfold ChunkSpec.enough. simpl. repeat constructor.
  - reflexivity.
  - reflexivity.
  - unfold ChunkSpec.enough. simpl. repeat constructor.
Defined.

Lemma trim_start_nil (cs : list ascii) :
  trim_start cs = [] <-> forallb is_white_space cs = true.
Proof.
  induction cs as [|c cs IH]; simpl; [tauto|].
  destruct (is_white_space c); simpl; [exact IH|]. split; discriminate.
Qed.

Lemma forallb_rev {A} (f : A -> bool) (l : list A) :
  forallb f (rev l) = forallb f l.
Proof.
  induction l as [|a l IH]; [reflexivity|].
  simpl. rewrite forallb_app, IH. simpl. rewrite andb_true_r. apply andb_comm.
Qed.

Lemma trim_start_white (cs : list ascii) :
  forallb is_white_space (trim_start cs) = forallb is_white_space cs.
Proof.
  induction cs as [|c cs IH]; [reflexivity|].
  simpl. destruct (is_white_space c) eqn:E; simpl; [exact IH|]. rewrite E. reflexivity.
Qed.

(** [s.trim()] is empty exactly when [s] holds white space only. *)
Lemma trim_blank (s : string) :
  String.eqb (trim s) "" = forallb is_white_space (list_ascii_of_string s).
Proof.
  unfold trim. set (cs := list_ascii_of_string s).
  destruct (forallb is_white_space cs) eqn:E.
  - apply trim_start_nil in E. rewrite E. reflexivity.
  - destruct (rev (trim_start (rev (trim_start cs)))) as [|c rest] eqn:R; [|reflexivity].
    exfalso.
    apply (f_equal (@rev ascii)) in R. rewrite rev_involutive in R. simpl in R.
    apply trim_start_nil in R. rewrite forallb_rev, trim_start_white in R. congruence.
Qed.

(** X10. The path is checked first: a [filePath] that is not a string, or
    a string holding white space only (the empty string included), rejects
    with the [TypeError] of the path whatever the chunk size and the stream
    are; any string with another character passes this check. *)
Theorem generateChunkHashes_blank_path (fuel : nat) (filePath chunkSizeArg : value) (r : run) :
  (forall s, filePath = VString s ->
     forallb is_white_space (list_ascii_of_string s) = true) ->
  generateChunkHashes fuel filePath chunkSizeArg r = Rejected (TypeError BadFilePath) /\
  ~ ChunkSpec.usable_path filePath /\
  (forall s, forallb is_white_space (list_ascii_of_string s) = false ->
     ChunkSpec.usable_path (VString s)).
Proof.
  intros Hblank. split; [|split].
  - unfold generateChunkHashes.
    destruct filePath; try reflexivity.
    simpl typeof. simpl String.eqb at 1. simpl negb. simpl orb.
    rewrite trim_blank, (Hblank s eq_refl). reflexivity.
  - intros (s & -> & Hs). rewrite trim_blank, (Hblank s eq_refl) in Hs. discriminate.
  - intros s Hs. exists s. split; [reflexivity|]. rewrite trim_blank. exact Hs.
Qed.

Lemma generateChunkHashes_blank_path_witness :
  generateChunkHashes 0 (VString "   ") (VNumber (NInt 0)) (Run [[x61]] Ended)
  = Rejected (TypeError BadFilePath).
Proof.
  apply (proj1 (generateChunkHashes_blank_path 0 (VString "   ") (VNumber (NInt 0))
                  (Run [[x61]] Ended) ltac:(intros s [= <-]; reflexivity))).
Defined.

(** X13. With a usable path, a chunk size that is given and is not a
    positive integer (zero, a negative integer, a fraction, NaN, an
    infinity, or a value that is not a number) rejects with the
    [RangeError] of the chunk size for every stream: nothing is read. *)
Theorem generateChunkHashes_rejects_chunk_size (fuel : nat) (filePath chunkSizeArg : value)
    (r : run) :
  ChunkSpec.usable_path filePath ->
  chunkSizeArg <> VUndefined ->
  (forall z, chunkSizeArg = VNumber (NInt z) -> z <= 0) ->
  generateChunkHashes fuel filePath chunkSizeArg r = Rejected (RangeError BadChunkSize).
Proof.
  intros (s & -> & Hs) Hgiven Hbad. unfold generateChunkHashes.
  simpl typeof. simpl String.eqb at 1. rewrite Hs. simpl negb. simpl orb. cbv iota.
  destruct chunkSizeArg as [| | |[z| | |]| |]; try reflexivity; [congruence|].
  simpl. rewrite (proj2 (Z.leb_le z 0)) by (apply Hbad; reflexivity). reflexivity.
Qed.

Lemma generateChunkHashes_rejects_chunk_size_witness :
  generateChunkHashes 0 ChunkSpec.some_path (VNumber NFrac) (Run [[x61]] Ended)
  = Rejected (RangeError BadChunkSize).
Proof.
  apply (generateChunkHashes_rejects_chunk_size 0 ChunkSpec.some_path (VNumber NFrac)
           (Run [[x61]] Ended)).
  - exact some_path_usable.
  - discriminate.
  - discriminate.
Defined.

(** X11. An error of the stream settles all three promises with that
    very error, also after data has been delivered: generateChunkHashes.js
    (past its argument checks), chunkHasher.js and hasher.js reject with
    [err] and return no digest. *)
Theorem stream_error_is_propagated (fuel : nat) (filePath chunkSizeArg : value)
    (chunkSize : Z) (chunks : list (list byte)) (err : error) :
  ChunkSpec.usable_path filePath ->
  ChunkSpec.effective_chunk_size chunkSizeArg = Some chunkSize ->
  ChunkSpec.enough fuel (Run chunks (Failed err)) ->
  GenerateChunkHashes.generateChunkHashes fuel filePath chunkSizeArg (Run chunks (Failed err))
    = Rejected err /\
  ChunkHasher.generateChunkHashes filePath chunkSizeArg (Run chunks (Failed err))
    = Rejected err /\
  Hasher.generateFileHash filePath (Run chunks (Failed err)) = Rejected err.
Proof.
  intros Hpath Hsize Hfuel. split; [|split; reflexivity].
  destruct (generateChunkHashes_effective fuel filePath _ _ (Run chunks (Failed err)) Hsize)
    as [Hpos ->].
  destruct (generateChunkHashes_run fuel filePath chunkSize _ Hpath Hpos Hfuel) as [-> _].
  reflexivity.
Qed.

Lemma stream_error_is_propagated_witness :
  GenerateChunkHashes.generateChunkHashes 3 ChunkSpec.some_path VUndefined
      (Run [[x61; x62]] (Failed (SystemError "EIO")))
    = Rejected (SystemError "EIO") /\
  ChunkHasher.generateChunkHashes ChunkSpec.some_path VUndefined
      (Run [[x61; x62]] (Failed (SystemError "EIO")))
    = Rejected (SystemError "EIO") /\
  Hasher.generateFileHash ChunkSpec.some_path (Run [[x61; x62]] (Failed (SystemError "EIO")))
    = Rejected (SystemError "EIO").
Proof.
  apply (stream_error_is_propagated 3 ChunkSpec.some_path VUndefined
           GenerateChunkHashes.DEFAULT_CHUNK_SIZE [[x61; x62]] (SystemError "EIO")).
  - exact some_path_usable.
  - reflexivity.
  - unfold ChunkSpec.enough. simpl. repeat constructor.
Defined.

(** X12. Between 'data' events the handler's counter is the number of
    bytes held by the open Hash object, which is the number of bytes
    delivered so far modulo the chunk size (so it stays below the chunk
    size), and the digests pushed so far number the bytes delivered divided
    by the chunk size; with fuel above the length of each buffer every
    handler run finishes. *)
Theorem data_handler_invariant (fuel : nat) (chunkSize : Z) (chunks : list (list byte)) :
  0 < chunkSize ->
  Forall (fun chunk => (length chunk < fuel)%nat) chunks ->
  exists p : progress,
    deliver fuel chunkSize chunks (Progress [] createHash 0) = Some p /\
    bytesInCurrentChunk p = Z.of_nat (length (absorbed (currentHash p))) /\
    bytesInCurrentChunk p = Z.of_nat (length (concat chunks)) mod chunkSize /\
    Z.of_nat (length (hashes p)) = Z.of_nat (length (concat chunks)) / chunkSize.
Proof.
  intros Hsize Hfuel.
  destruct (deliver_tracks chunkSize fuel chunks Hsize Hfuel _ [] (tracks_start _ Hsize))
    as (p & Hrun & ws & Hws & Hsrc & Hh & Hb & Hroom).
  exists p. split; [exact Hrun|]. split; [exact Hb|].
  simpl in Hsrc. rewrite Hsrc, length_app, Nat2Z.inj_add.
  rewrite (concat_length_exact chunkSize ws Hws), <- Hb, Hh, length_map.
  assert (0 <= bytesInCurrentChunk p) by lia.
  split.
  - apply (Z.mod_unique_pos _ _ (Z.of_nat (length ws))); lia.
  - apply (Z.div_unique_pos _ _ _ (bytesInCurrentChunk p)); lia.
Qed.

Lemma data_handler_invariant_witness :
  exists p : progress,
    deliver 3 2 [[x61]; [x62; x63]] (Progress [] createHash 0) = Some p /\
    bytesInCurrentChunk p = Z.of_nat (length (absorbed (currentHash p))) /\
    bytesInCurrentChunk p = Z.of_nat (length (concat [[x61]; [x62; x63]])) mod 2 /\
    Z.of_nat (length (hashes p)) = Z.of_nat (length (concat [[x61]; [x62; x63]])) / 2.
Proof.
  apply (data_handler_invariant 3 2 [[x61]; [x62; x63]]).
  - lia.
  - simpl. repeat constructor.
Defined.

Lemma digests_valid (ws : list (list byte)) :
  Forall MerkleSpec.valid_digest (map Windows.sha256_hex ws).
Proof.
  apply Forall_fmap, Forall_true. intros w. apply digest_is_valid.
Qed.

Lemma windows_nonempty (size : Z) (src : list byte) :
  0 < size -> src <> [] -> Windows.windows size src <> [].
Proof.
  intros Hsize Hne Hnil.
  pose proof (windows_concat size src Hsize) as Hc. rewrite Hnil in Hc.
  simpl in Hc. congruence.
Qed.

(** X14. Every digest with which generateChunkHashes.js resolves is a
    string of 64 characters out of 0-9 and a-f. *)
Theorem generateChunkHashes_digest_format (fuel : nat) (filePath chunkSizeArg : value)
    (r : run) (digests : list string) :
  generateChunkHashes fuel filePath chunkSizeArg r = Resolved digests ->
  ChunkSpec.enough fuel r ->
  Forall (fun d => MerkleSpec.lower_hex64 (VString d)) digests.
Proof.
  intros Hrun Hfuel.
  assert (exists s, filePath = VString s /\ String.eqb (trim s) "" = false) as Hpath.
  { unfold generateChunkHashes in Hrun.
    destruct filePath; try discriminate.
    simpl typeof in Hrun. simpl String.eqb at 1 in Hrun. simpl negb in Hrun. simpl orb in Hrun.
    destruct (String.eqb (trim s) "") eqn:E; [discriminate|]. eauto. }
  destruct (ChunkSpec.effective_chunk_size chunkSizeArg) as [chunkSize|] eqn:Hsize.
  2:{ destruct (generateChunkHashes_bad_chunk_size fuel filePath _ r Hsize) as [H|H];
        rewrite H in Hrun; discriminate. }
  destruct (generateChunkHashes_effective fuel filePath _ _ r Hsize) as [Hpos Harg].
  destruct (generateChunkHashes_run fuel filePath chunkSize r Hpath Hpos Hfuel) as [Hres _].
  rewrite Harg, Hres in Hrun.
  destruct (finish r); [|discriminate]. injection Hrun as <-.
  eapply Forall_impl; [apply digests_valid|].
  intros d Hd. apply isValidSHA256Hex_spec. exact Hd.
Qed.

Lemma generateChunkHashes_digest_format_witness :
  Forall (fun d => MerkleSpec.lower_hex64 (VString d))
    ["fb8e20fc2e4c3f248c60c39bd652f3c1347298bb977b8b4d5903b85055620603"%string].
Proof.
  apply (generateChunkHashes_digest_format 3 ChunkSpec.some_path (VNumber (NInt 2))
           (Run [[x61]; [x62]] Ended)).
  - vm_compute. reflexivity.
  - unfold ChunkSpec.enough. simpl. repeat constructor.
Defined.

(** X15. The two stages compose: the digests of a non-empty source, put
    in an array, are accepted by [buildMerkleRoot], which returns a
    well-formed root; the empty list of digests of an empty source is
    answered with the [RangeError] of the empty array. *)
Theorem chunk_digests_feed_merkle_root (fuel fuel2 : nat) (filePath chunkSizeArg : value)
    (chunkSize : Z) (r : run) (src : list byte) (digests : list string)
    (hashes : value) st :
  ChunkSpec.usable_path filePath ->
  ChunkSpec.effective_chunk_size chunkSizeArg = Some chunkSize ->
  ChunkSpec.delivers r src -> finish r = Ended -> ChunkSpec.enough fuel r ->
  generateChunkHashes fuel filePath chunkSizeArg r = Resolved digests ->
  array_at st hashes = Some (MerkleSpec.leaves digests) ->
  (length digests < fuel2)%nat ->
  (src <> [] ->
   exists root st',
     Merkle.buildMerkleRoot fuel2 hashes st = (Ret (VString root), st') /\
     MerkleSpec.lower_hex64 (VString root)) /\
  (src = [] ->
   Merkle.buildMerkleRoot fuel2 hashes st = (Throw (RangeError EmptyHashes), st)).
Proof.
  intros Hpath Hsize Hsrc Hend Hfuel Hrun Harr Hfuel2.
  destruct (generateChunkHashes_effective fuel filePath _ _ r Hsize) as [Hpos _].
  rewrite (generateChunkHashes_byte_exact fuel _ _ _ r src Hpath Hsize Hsrc Hend Hfuel) in Hrun.
  injection Hrun as <-. split.
  - intros Hne.
    destruct (root_of_valid fuel2 hashes _ st Harr (digests_valid _)) as (root & st' & Hrun & Hred).
    { split; [|exact Hfuel2]. rewrite length_map.
      pose proof (windows_nonempty chunkSize src Hpos Hne).
      destruct (Windows.windows chunkSize src); [congruence|simpl; lia]. }
    exists root, st'. split; [exact Hrun|].
    apply isValidSHA256Hex_spec. exact (reduces_valid _ _ Hred (digests_valid _)).
  - intros ->. apply root_empty. exact Harr.
Qed.

Lemma chunk_digests_feed_merkle_root_witness :
  (ChunkSpec.ab <> [] ->
   exists root st',
     Merkle.buildMerkleRoot 3 (VObject 0%nat)
       (Samples.one_array (MerkleSpec.leaves
          ["ca978112ca1bbdcafac231b39a23dc4da786eff8147c4e72b9807785afee48bb"%string;
           "3e23e8160039594a33894f6564e1b1348bbd7a0088d42c4acb73eeaed59c009d"%string]))
     = (Ret (VString root), st') /\
     MerkleSpec.lower_hex64 (VString root)) /\
  (ChunkSpec.ab = [] ->
   Merkle.buildMerkleRoot 3 (VObject 0%nat)
     (Samples.one_array (MerkleSpec.leaves
        ["ca978112ca1bbdcafac231b39a23dc4da786eff8147c4e72b9807785afee48bb"%string;
         "3e23e8160039594a33894f6564e1b1348bbd7a0088d42c4acb73eeaed59c009d"%string]))
   = (Throw (RangeError EmptyHashes),
      Samples.one_array (MerkleSpec.leaves
        ["ca978112ca1bbdcafac231b39a23dc4da786eff8147c4e72b9807785afee48bb"%string;
         "3e23e8160039594a33894f6564e1b1348bbd7a0088d42c4acb73eeaed59c009d"%string]))).
Proof.
  apply (chunk_digests_feed_merkle_root 3 3 ChunkSpec.some_path (VNumber (NInt 1)) 1
           (Run [[x61]; [x62]] Ended) ChunkSpec.ab
           ["ca978112ca1bbdcafac231b39a23dc4da786eff8147c4e72b9807785afee48bb"%string;
            "3e23e8160039594a33894f6564e1b1348bbd7a0088d42c4acb73eeaed59c009d"%string]).
  - exact some_path_usable.
  - reflexivity.
  - reflexivity.
  - reflexivity.
  - unfold ChunkSpec.enough. simpl. repeat constructor.
  - vm_compute. reflexivity.
  - reflexivity.
  - simpl. lia.
Defined.

(** X16. The single-chunk identity: for a non-empty source no longer than
    the chunk size, the Merkle root of the digests of generateChunkHashes.js
    is the one digest itself, nothing being hashed for it, and it is the
    digest [generateFileHash] gives for the same bytes. *)
Theorem single_chunk_root_is_file_hash (fuel fuel2 : nat) (filePath chunkSizeArg : value)
    (chunkSize : Z) (r1 r2 : run) (src : list byte) (digests : list string)
    (hashes : value) st :
  ChunkSpec.usable_path filePath ->
  ChunkSpec.effective_chunk_size chunkSizeArg = Some chunkSize ->
  src <> [] ->
  Z.of_nat (length src) <= chunkSize ->
  ChunkSpec.delivers r1 src -> finish r1 = Ended -> ChunkSpec.enough fuel r1 ->
  ChunkSpec.delivers r2 src -> finish r2 = Ended ->
  generateChunkHashes fuel filePath chunkSizeArg r1 = Resolved digests ->
  array_at st hashes = Some (MerkleSpec.leaves digests) ->
  exists root,
    Merkle.buildMerkleRoot fuel2 hashes st = (Ret (VString root), st) /\
    digests = [root] /\
    Hasher.generateFileHash filePath r2 = Resolved root.
Proof.
  intros Hpath Hsize Hne Hlen H1 E1 F1 H2 E2 Hrun Harr.
  rewrite (generateChunkHashes_byte_exact fuel _ _ _ r1 src Hpath Hsize H1 E1 F1) in Hrun.
  rewrite (single_window chunkSize src Hne Hlen) in Hrun. injection Hrun as <-.
  exists (Windows.sha256_hex src). split; [|split; [reflexivity|]].
  - apply root_single; [exact Harr|apply digest_is_valid].
  - unfold Hasher.generateFileHash. rewrite E2.
    unfold digest_hex. rewrite fold_update_absorbs.
    unfold ChunkSpec.delivers in H2. rewrite H2. reflexivity.
Qed.

Lemma single_chunk_root_is_file_hash_witness :
  exists root,
    Merkle.buildMerkleRoot 1 (VObject 0%nat)
      (Samples.one_array (MerkleSpec.leaves
         ["fb8e20fc2e4c3f248c60c39bd652f3c1347298bb977b8b4d5903b85055620603"%string]))
    = (Ret (VString root),
       Samples.one_array (MerkleSpec.leaves
         ["fb8e20fc2e4c3f248c60c39bd652f3c1347298bb977b8b4d5903b85055620603"%string])) /\
    ["fb8e20fc2e4c3f248c60c39bd652f3c1347298bb977b8b4d5903b85055620603"%string] = [root] /\
    Hasher.generateFileHash ChunkSpec.some_path (Run [[x61; x62]] Ended) = Resolved root.
Proof.
  apply (single_chunk_root_is_file_hash 3 1 ChunkSpec.some_path (VNumber (NInt 1024)) 1024
           (Run [[x61]; [x62]] Ended) (Run [[x61; x62]] Ended) ChunkSpec.ab
           ["fb8e20fc2e4c3f248c60c39bd652f3c1347298bb977b8b4d5903b85055620603"%string]).
  - exact some_path_usable.
  - reflexivity.
  - discriminate.
  - simpl. lia.
  - reflexivity.
  - reflexivity.
  - unfold ChunkSpec.enough. simpl. repeat constructor.
  - reflexivity.
  - reflexivity.
  - vm_compute. reflexivity.
  - reflexivity.
Defined.

(** X17. When the stream hands over one window per 'data' event (every
    buffer but the last of exactly the chunk size, none empty),
    chunkHasher.js resolves with the very digests of generateChunkHashes.js
    called with the same positive chunk size. *)
Theorem chunkHasher_agrees_on_window_streams (fuel : nat) (filePath : value)
    (chunkSize : Z) (r : run) :
  ChunkSpec.usable_path filePath ->
  0 < chunkSize ->
  delivered r = Windows.windows chunkSize (concat (delivered r)) ->
  finish r = Ended ->
  ChunkSpec.enough fuel r ->
  ChunkHasher.generateChunkHashes filePath (VNumber (NInt chunkSize)) r
  = GenerateChunkHashes.generateChunkHashes fuel filePath (VNumber (NInt chunkSize)) r.
Proof.
  intros Hpath Hpos Hwin Hend Hfuel.
  rewrite chunkHasher_per_delivery, Hend.
  destruct (generateChunkHashes_run fuel filePath chunkSize r Hpath Hpos Hfuel) as [-> _].
  rewrite Hend, <- Hwin. reflexivity.
Qed.

Lemma chunkHasher_agrees_on_window_streams_witness :
  ChunkHasher.generateChunkHashes ChunkSpec.some_path (VNumber (NInt 2))
    (Run [[x61; x62]; [x63]] Ended)
  = GenerateChunkHashes.generateChunkHashes 3 ChunkSpec.some_path (VNumber (NInt 2))
      (Run [[x61; x62]; [x63]] Ended).
Proof.
  apply (chunkHasher_agrees_on_window_streams 3 ChunkSpec.some_path 2
           (Run [[x61; x62]; [x63]] Ended)).
  - exact some_path_usable.
  - lia.
  - reflexivity.
  - reflexivity.
  - unfold ChunkSpec.enough. simpl. repeat constructor.
Defined.

(** X18. [generateFileHash] resolves with the SHA-256 of the whole content
    however the stream cuts it: two streams that deliver the same bytes
    give the same digest, a well-formed one; an empty file gives the digest
    of the empty message and no error. *)
Theorem generateFileHash_whole_content (filePath : value) (r1 r2 : run) (src : list byte) :
  ChunkSpec.delivers r1 src -> finish r1 = Ended ->
  ChunkSpec.delivers r2 src -> finish r2 = Ended ->
  Hasher.generateFileHash filePath r1 = Resolved (Windows.sha256_hex src) /\
  Hasher.generateFileHash filePath r2 = Hasher.generateFileHash filePath r1 /\
  MerkleSpec.lower_hex64 (VString (Windows.sha256_hex src)) /\
  (src = [] ->
   Hasher.generateFileHash filePath r1
   = Resolved "e3b0c44298fc1c149afbf4c8996fb92427ae41e4649b934ca495991b7852b855"%string).
Proof.
  intros H1 E1 H2 E2.
  assert (forall r, ChunkSpec.delivers r src -> finish r = Ended ->
            Hasher.generateFileHash filePath r = Resolved (Windows.sha256_hex src)) as Hany.
  { intros r Hr Er. unfold Hasher.generateFileHash. rewrite Er.
    unfold digest_hex. rewrite fold_update_absorbs.
    unfold ChunkSpec.delivers in Hr. rewrite Hr. reflexivity. }
  rewrite (Hany r1 H1 E1), (Hany r2 H2 E2).
  split; [reflexivity|]. split; [reflexivity|]. split.
  - apply isValidSHA256Hex_spec, digest_is_valid.
  - intros ->. exact (f_equal Resolved sha256_empty).
Qed.

Lemma generateFileHash_whole_content_witness :
  Hasher.generateFileHash ChunkSpec.some_path (Run [[x61]; [x62]] Ended)
    = Resolved (Windows.sha256_hex ChunkSpec.ab) /\
  Hasher.generateFileHash ChunkSpec.some_path (Run [[x61; x62]; []] Ended)
    = Hasher.generateFileHash ChunkSpec.some_path (Run [[x61]; [x62]] Ended) /\
  MerkleSpec.lower_hex64 (VString (Windows.sha256_hex ChunkSpec.ab)) /\
  (ChunkSpec.ab = [] ->
   Hasher.generateFileHash ChunkSpec.some_path (Run [[x61]; [x62]] Ended)
   = Resolved "e3b0c44298fc1c149afbf4c8996fb92427ae41e4649b934ca495991b7852b855"%string).
Proof.
  apply (generateFileHash_whole_content ChunkSpec.some_path
           (Run [[x61]; [x62]] Ended) (Run [[x61; x62]; []] Ended) ChunkSpec.ab).
  - reflexivity.
  - reflexivity.
  - reflexivity.
  - reflexivity.
Defined.
